(** * Safe-Policy-Optimization: the CPO trust-region update and its substrate

    A shallow embedding of
      - [safepo/envs/safe_dexteroushands/algorithms/cpo.py]
        (flat parameter utilities, conjugate gradient, the dual optimizer,
        the constrained line search, the rollout bookkeeping of [CPO.run]);
      - [safepo/multi_agent/marl_utils/env_wrappers.py]
        ([shareworker] and [ShareDummyVecEnv.step_wait]).

    Scalars are rationals: the tensors' floating-point numbers are read in
    exact arithmetic.  A division whose denominator is exactly zero has no
    value there (the tensor code yields [inf] or [nan] and goes on); the
    embedding stops at it and names the division.

    Part I holds the definitions, Part II the theorems. *)

From Stdlib Require Import List Bool Arith Lia ZArith QArith Qminmax Lqa Setoid Morphisms.
From Stdlib Require String.
Import ListNotations.

Set Implicit Arguments.

(** * Part I: the embedding *)

(** ** Flat parameter utilities ([cpo.py], lines 31-114) *)

Module Flat.
Section Params.

(** The element type of a tensor; nothing below looks inside it. *)
Context {T : Type}.

(** A tensor: its [size()] and its elements in row-major order. *)
Record tensor : Type := Tensor { size : list nat; data : list T }.

Definition numel (shape : list nat) : nat := fold_right Nat.mul 1%nat shape.

(** The invariant of every tensor: as many elements as its size says. *)
Definition tensor_wf (t : tensor) : Prop := length (data t) = numel (size t).

(** A model is the sequence [model.parameters()] in its canonical order. *)
Definition model : Type := list tensor.

(** How a call of [set_params] ends: it returns, or [view] raises. *)
Inductive outcome : Type :=
| Done
| ShapeMismatch.

(** [t.view(-1)] *)
Definition view_flat (t : tensor) : tensor :=
  Tensor [length (data t)] (data t).

(** [v.view(shape)]: refused unless the element counts agree. *)
Definition view (v : list T) (shape : list nat) : option tensor :=
  if length v =? numel shape then Some (Tensor shape v) else None.

(** [v[i:j]]: a Python slice never fails, it clamps to the sequence. *)
Definition slice (v : list T) (i j : nat) : list T := firstn (j - i) (skipn i v).

(** [flatten(vecs)]: [torch.cat([v.view(-1) for v in vecs])] *)
Definition flatten (vecs : list tensor) : list T :=
  concat (map (fun v => data (view_flat v)) vecs).

(** [get_flat_params(parameterized_fun)] *)
Definition get_flat_params (parameterized_fun : model) : list T :=
  flatten (map view_flat parameterized_fun).

(** The loop of [set_params], from position [index] on.  The blocks are
    overwritten in place one after the other, so when [view] raises, the
    blocks before the failing one keep their new contents. *)
Fixpoint set_params_from (index : nat) (ps : model) (new_params : list T)
  : model * outcome :=
  match ps with
  | [] => ([], Done)
  | params :: rest =>
      let params_length := length (data (view_flat params)) in
      let new_param := slice new_params index (index + params_length) in
      match view new_param (size params) with
      | None => (params :: rest, ShapeMismatch)
      | Some new_param =>
          let '(rest', o) := set_params_from (index + params_length) rest new_params in
          (new_param :: rest', o)
      end
  end.

(** [set_params(model, new_params)] *)
Definition set_params (m : model) (new_params : list T) : model * outcome :=
  set_params_from 0 m new_params.

(** The model's total parameter count. *)
Definition total_count (m : model) : nat := length (get_flat_params m).

End Params.
End Flat.

(** ** Scalars, vectors and the divisions of the update path *)

Module Num.

(** [EPS = 1e-8] *)
Definition EPS : Q := 1 # 100000000.

(** The divisions of [CPO.cg_solver] and [CPO.update], one name each. *)
Inductive site : Type :=
| DivAlpha      (* alpha = r.r / (p.Avp + EPS) *)
| DivBeta       (* beta = r_new.r_new / r.r *)
| DivA          (* r**2 / s *)
| DivB          (* c**2 / s *)
| DivLam        (* q / (2*max_kl) *)
| DivInterval   (* r / c *)
| DivAB         (* A / B *)
| DivFaLam      (* A / (lam+EPS) in f_a *)
| DivFaS        (* r*c / (s+EPS) in f_a *)
| DivFb         (* q / (lam+EPS) in f_b *)
| DivNu         (* max(0, lam*c - r) / (s+EPS) *)
| DivNu0        (* 2*max_kl / (s+EPS) *)
| DivDir.       (* 1. / (lam+EPS) *)

(** The divisions whose denominator carries [+ EPS] in the source. *)
Definition guarded (d : site) : bool :=
  match d with
  | DivAlpha | DivFaLam | DivFaS | DivFb | DivNu | DivNu0 | DivDir => true
  | DivBeta | DivA | DivB | DivLam | DivInterval | DivAB => false
  end.

(** A computation of the update path: a value, a division by exactly zero,
    or the failed assertion [kl_value.item() >= 0]. *)
Inductive result (A : Type) : Type :=
| Ok (a : A)
| DivByZero (d : site)
| KlNegative.

Arguments Ok {A} a.
Arguments DivByZero {A} d.
Arguments KlNegative {A}.

(** A computation that, if it stops at a division, stops at one of the five
    whose denominator carries no [EPS]; the assertion does not fail. *)
Definition stops_unguarded {A : Type} (m : result A) : Prop :=
  match m with
  | Ok _ => True
  | DivByZero d => In d [DivBeta; DivA; DivB; DivInterval; DivAB]
  | KlNegative => False
  end.

Definition bind {A B : Type} (m : result A) (k : A -> result B) : result B :=
  match m with
  | Ok a => k a
  | DivByZero d => DivByZero d
  | KlNegative => KlNegative
  end.

Definition Qltb (x y : Q) : bool := negb (Qle_bool y x).

(** [x / y] at the division named [d]. *)
Definition div (d : site) (x y : Q) : result Q :=
  if Qeq_bool y 0 then DivByZero d else Ok (x / y).

(** Python's [max(a, b)] and [min(a, b)]: the first argument wins a tie. *)
Definition pymax (a b : Q) : Q := if Qltb a b then b else a.
Definition pymin (a b : Q) : Q := if Qltb b a then b else a.

(** One-dimensional tensors.  Every vector of the update has the length of
    the flat parameter vector; on lists of different lengths (on which torch
    raises) the operations stop at the shorter one. *)
Definition vec : Type := list Q.

Fixpoint map2 (f : Q -> Q -> Q) (a b : vec) : vec :=
  match a, b with
  | x :: a', y :: b' => f x y :: map2 f a' b'
  | _, _ => []
  end.

Definition vadd (a b : vec) : vec := map2 Qplus a b.
Definition vsub (a b : vec) : vec := map2 Qminus a b.
Definition vscale (k : Q) (a : vec) : vec := map (Qmult k) a.
Definition zeros_like (a : vec) : vec := map (fun _ => 0) a.

(** [torch.matmul(a, b)] on one-dimensional tensors. *)
Definition matmul (a b : vec) : Q := fold_right Qplus 0 (map2 Qmult a b).

(** Equality of vectors as numbers, entry by entry. *)
Definition veq (a b : vec) : Prop := Forall2 Qeq a b.

End Num.

Declare Scope result_scope.
Delimit Scope result_scope with result.
Notation "x <- m ;; k" := (Num.bind m (fun x => k))
  (at level 61, m at next level, right associativity) : result_scope.
Notation "' pat <- m ;; k" :=
  (Num.bind m (fun x => match x with pat => k end))
  (at level 61, pat pattern, m at next level, right associativity) : result_scope.

(** ** The trust-region update ([cpo.py], [CPO.update] and [CPO.cg_solver]) *)

Module Cpo.
Import Num.
Local Open Scope result_scope.

(** [self.max_kl = 0.02] *)
Definition max_kl : Q := 2 # 100.

(** The default [max_iter=10] of [cg_solver]; no caller passes another. *)
Definition max_iter : nat := 10.

(** The upper end of a multiplier interval: a number or [np.inf]. *)
Inductive upper : Type :=
| Fin (q : Q)
| Inf.

(** What the dual optimizer hands to the line search. *)
Record direction : Type := Direction
  { optim_case : nat; lam : Q; nu : Q; x : vec }.

(** [b.b <= 1e-8 and c < 0] (line 422) *)
Definition pure_return (bb c : Q) : bool :=
  Qle_bool bb (1 # 100000000) && Qltb c 0.

(** The [if/elif/elif/else] chain on [c] and [B] (lines 435-450). *)
Definition classify (c B : Q) : nat :=
  if Qltb c 0 && Qltb B 0 then 3
  else if Qltb c 0 && Qle_bool 0 B then 2
  else if Qle_bool 0 c && Qle_bool 0 B then 1
  else 0.

(** The classification step as a whole (lines 422-450), [A] and [B] given. *)
Definition select_case (bb c B : Q) : nat :=
  if pure_return bb c then 4 else classify c B.

(** [proj = lambda x, L : max(L[0], min(L[1], x))] *)
Definition min_upper (u : upper) (x : Q) : Q :=
  match u with
  | Inf => x
  | Fin h => pymin h x
  end.

Definition proj (x : Q) (L : Q * upper) : Q := pymax (fst L) (min_upper (snd L) x).

(** [optim_case in [3,4]] and [optim_case in [1,2]] *)
Definition in_3_4 (k : nat) : bool := (k =? 3) || (k =? 4).
Definition in_1_2 (k : nat) : bool := (k =? 1) || (k =? 2).

Section Update.

(** [torch.sqrt], and the Fisher-vector product [Fvp] of the minibatch. *)
Variable sqrt : Q -> Q.
Variable Fvp : vec -> vec.

(** One pass of the loop of [cg_solver]; [remaining] counts the passes
    after this one, so the test [i == max_iter - 1] is [remaining = 0]. *)
Fixpoint cg_iter (Avp_fun : vec -> vec) (remaining : nat) (x r p : vec)
  : result vec :=
  let Avp := Avp_fun p in
  alpha <- div DivAlpha (matmul r r) (matmul p Avp + EPS) ;;
  let x := vadd x (vscale alpha p) in
  match remaining with
  | O => Ok x
  | S remaining' =>
      let r_new := vsub r (vscale alpha Avp) in
      beta <- div DivBeta (matmul r_new r_new) (matmul r r) ;;
      let r := r_new in
      cg_iter Avp_fun remaining' x r (vadd r (vscale beta p))
  end.

(** [cg_solver(Avp_fun, b)] *)
Definition cg_solver (Avp_fun : vec -> vec) (b : vec) : result vec :=
  cg_iter Avp_fun (max_iter - 1) (zeros_like b) b b.

(** Lines 422-450: the case and the scalars [w, r, s, A, B].  In case 4 the
    source sets all five to the integer 0; [w] is then the zero that
    broadcasts over [v]. *)
Definition region (b v approx_g : vec) (q c : Q)
  : result (nat * vec * Q * Q * Q * Q) :=
  if pure_return (matmul b b) c then
    Ok (4%nat, zeros_like v, 0, 0, 0, 0)
  else
    w <- cg_solver Fvp b ;;
    let r := matmul approx_g w in
    let s := matmul w (Fvp w) in
    r2s <- div DivA (r * r) s ;;
    let A := q - r2s in
    c2s <- div DivB (c * c) s ;;
    let B := 2 * max_kl - c2s in
    Ok (classify c B, w, r, s, A, B).

(** [f_a] and [f_b] (lines 460-461) *)
Definition f_a (A B r c s lam : Q) : result Q :=
  t1 <- div DivFaLam A (lam + EPS) ;;
  t2 <- div DivFaS (r * c) (s + EPS) ;;
  Ok (- (1 # 2) * (t1 + B * lam) - t2).

Definition f_b (q lam : Q) : result Q :=
  t1 <- div DivFb q (lam + EPS) ;;
  Ok (- (1 # 2) * (t1 + 2 * max_kl * lam)).

(** Lines 451-466: the multipliers [lam] and [nu]. *)
Definition multipliers (optim_case : nat) (q r s c A B : Q) : result (Q * Q) :=
  if in_3_4 optim_case then
    t <- div DivLam q (2 * max_kl) ;;
    Ok (sqrt t, 0)
  else if in_1_2 optim_case then
    rc <- div DivInterval r c ;;
    let LA := (0, Fin rc) in
    let LB := (rc, Inf) in
    let '(LA, LB) := if Qltb c 0 then (LA, LB) else (LB, LA) in
    ab <- div DivAB A B ;;
    let lam_a := proj (sqrt ab) LA in
    t <- div DivLam q (2 * max_kl) ;;
    let lam_b := proj (sqrt t) LB in
    fa <- f_a A B r c s lam_a ;;
    fb <- f_b q lam_b ;;
    let lam := if Qle_bool fb fa then lam_a else lam_b in
    nu <- div DivNu (pymax 0 (lam * c - r)) (s + EPS) ;;
    Ok (lam, nu)
  else
    t <- div DivNu0 (2 * max_kl) (s + EPS) ;;
    Ok (0, sqrt t).

(** Line 468: the direction [x]. *)
Definition search_dir (optim_case : nat) (lam nu : Q) (v w : vec) : result vec :=
  if (0 <? optim_case)%nat then
    k <- div DivDir 1 (lam + EPS) ;;
    Ok (vscale k (vadd v (vscale nu w)))
  else
    Ok (vscale nu w).

(** Lines 415-468 for the gradients [g] and [b] and the violation [c]. *)
Definition update_direction (g b : vec) (c : Q) : result direction :=
  v <- cg_solver Fvp g ;;
  let approx_g := Fvp v in
  let q := matmul v approx_g in
  '(optim_case, w, r, s, A, B) <- region b v approx_g q c ;;
  '(lam, nu) <- multipliers optim_case q r s c A B ;;
  x <- search_dir optim_case lam nu v w ;;
  Ok (Direction optim_case lam nu x).

End Update.

(** *** The constrained line search (lines 470-506) *)

(** [np.linspace(start, stop, num, endpoint=True)] *)
Definition linspace (start stop : Q) (num : nat) : list Q :=
  let step := (stop - start) / inject_Z (Z.of_nat (num - 1)) in
  map (fun i => start + inject_Z (Z.of_nat i) * step) (seq 0 num).

(** [np.linspace(0, 0.01, 10, endpoint=True)[::-1]] *)
Definition pi_linear_search_list : list Q := rev (linspace 0 (1 # 100) 10).

Section LineSearch.

(** The actor evaluated on the minibatch when its flat parameters are the
    argument: the mean KL divergence to the pre-step distribution
    ([mean_batch.detach()], [std_batch.detach()]), the surrogate return
    [(ratio * advantages).mean()] and the surrogate cost
    [(ratio * cadvantages).mean()]. *)
Variable kl_value : vec -> Q.
Variable surr_adv : vec -> Q.
Variable surr_cost : vec -> Q.

(** The variables [set_and_eval] captures from [update]. *)
Variable current_policy : vec.
Variable x : vec.
Variable optim_case : nat.
Variable c : Q.
Variable surrogate_loss : Q.
Variable surrogate_cost_loss : Q.

(** [set_and_eval(step)]; the actor is left at [new_policy]. *)
Definition set_and_eval (step : Q) : result bool :=
  let new_policy := vsub current_policy (vscale step x) in
  let kl := kl_value new_policy in
  if Qle_bool 0 kl then
    let surr_cost_new := surr_cost new_policy in
    let pi_l_new := surr_adv new_policy in
    let improve_cost := surr_cost_new - surrogate_cost_loss in
    Ok (Qle_bool kl max_kl
        && (if (1 <? optim_case)%nat then Qle_bool surrogate_loss pi_l_new else true)
        && Qle_bool improve_cost (pymax (- c) 0))
  else KlNegative.

(** The [for e in pi_linear_search_list] loop: [Some e] when it leaves by
    [break] at [e], [None] when it runs off the end of the list. *)
Fixpoint search (cands : list Q) : result (option Q) :=
  match cands with
  | [] => Ok None
  | e :: rest =>
      accepted <- set_and_eval e ;;
      if (accepted : bool) then Ok (Some e) else search rest
  end.

(** Lines 496-506: the accepted [step_len] and the parameters the actor
    ends with. *)
Definition line_search : result (Q * vec) :=
  found <- search pi_linear_search_list ;;
  let step_len := match found with Some e => e | None => 0 end in
  let new_policy := vsub current_policy (vscale step_len x) in
  Ok (step_len, new_policy).

End LineSearch.

(** The policy part of one minibatch of [update]: the pre-step surrogates
    are the actor's own evaluation at [current_policy] (lines 360-369). *)
Definition update_policy (sqrt : Q -> Q) (Fvp : vec -> vec)
  (kl_value surr_adv surr_cost : vec -> Q)
  (g b : vec) (c : Q) (current_policy : vec) : result vec :=
  let surrogate_loss := surr_adv current_policy in
  let surrogate_cost_loss := surr_cost current_policy in
  d <- update_direction sqrt Fvp g b c ;;
  r <- line_search kl_value surr_adv surr_cost current_policy
         (Cpo.x d) (Cpo.optim_case d) c surrogate_loss surrogate_cost_loss ;;
  Ok (snd r).

End Cpo.

(** ** The rollout bookkeeping of [CPO.run] (lines 235-301) *)

Module Run.
Import Num.

(** [deque(maxlen=100)] *)
Definition maxlen : nat := 100.

Definition deque_append (buf : list Q) (v : Q) : list Q :=
  let buf' := buf ++ [v] in
  skipn (length buf' - maxlen) buf'.

Definition deque_extend (buf vs : list Q) : list Q := fold_left deque_append vs buf.

(** The three rolling buffers. *)
Record stats : Type := Stats
  { rewbuffer : list Q; costbuffer : list Q; lenbuffer : list Q }.

(** The running sums per environment and the lists of finished episodes. *)
Record books : Type := Books
  { cur_reward_sum : vec; cur_cost_sum : vec; cur_episode_length : vec;
    reward_sum : list Q; cost_sum : list Q; episode_length : list Q;
    ep_cost : list Q }.

(** Lines 235-247: each buffer starts with one appended 0. *)
Definition init_stats : stats :=
  Stats (deque_append [] 0) (deque_append [] 0) (deque_append [] 0).

Definition init_books (num_envs : nat) : books :=
  Books (repeat 0 num_envs) (repeat 0 num_envs) (repeat 0 num_envs) [] [] [] [].

(** [(dones > 0).nonzero(as_tuple=False)]: the indices, in order. *)
Definition new_ids (dones : vec) : list nat :=
  filter (fun i => Qltb 0 (nth i dones 0)) (seq 0 (length dones)).

(** [t[ids][:, 0].tolist()] *)
Definition gather (t : vec) (ids : list nat) : list Q :=
  map (fun i => nth i t 0) ids.

(** [t[i] = v] *)
Fixpoint put (i : nat) (v : Q) (t : vec) : vec :=
  match i, t with
  | _, [] => []
  | O, _ :: t' => v :: t'
  | S i', h :: t' => h :: put i' v t'
  end.

(** [t[ids] = 0] *)
Definition zero_at (ids : list nat) (t : vec) : vec :=
  fold_left (fun acc i => put i 0 acc) ids t.

(** Lines 274-288, for the [rews], [costs] and [dones] of one step. *)
Definition book_step (print_log : bool) (bk : books) (tr : vec * vec * vec) : books :=
  let '(rews, costs, dones) := tr in
  if print_log then
    let cur_r := vadd (cur_reward_sum bk) rews in
    let cur_c := vadd (cur_cost_sum bk) costs in
    let cur_l := map (fun l => l + 1) (cur_episode_length bk) in
    let ids := new_ids dones in
    Books (zero_at ids cur_r) (zero_at ids cur_c) (zero_at ids cur_l)
          (reward_sum bk ++ gather cur_r ids)
          (cost_sum bk ++ gather cur_c ids)
          (episode_length bk ++ gather cur_l ids)
          (ep_cost bk ++ gather cur_c ids)
  else bk.

(** [np.mean] *)
Definition np_mean (vs : list Q) : Q :=
  fold_right Qplus 0 vs / inject_Z (Z.of_nat (length vs)).

(** Lines 289-296: the value passed to [update] as [avg_cost]. *)
Definition avg_cost (ep_cost : list Q) (cost_lim : Q) : Q :=
  let origin_cost := 0 in
  if (length ep_cost =? 0)%nat then origin_cost
  else np_mean ep_cost - cost_lim.

(** One pass of the [for it in range(...)] loop up to the call of [update]:
    [ep_cost] starts empty, the rollout runs over the steps' transitions,
    and the buffers are extended with the lists of finished episodes.  The
    result also carries the [avg_cost] handed to [update]. *)
Definition collect (print_log : bool) (cost_lim : Q) (st : stats) (bk : books)
  (steps : list (vec * vec * vec)) : stats * books * Q :=
  let bk0 := Books (cur_reward_sum bk) (cur_cost_sum bk) (cur_episode_length bk)
                   (reward_sum bk) (cost_sum bk) (episode_length bk) [] in
  let bk1 := fold_left (book_step print_log) steps bk0 in
  let c := avg_cost (ep_cost bk1) cost_lim in
  let st1 :=
    if print_log then
      Stats (deque_extend (rewbuffer st) (reward_sum bk1))
            (deque_extend (costbuffer st) (cost_sum bk1))
            (deque_extend (lenbuffer st) (episode_length bk1))
    else st in
  (st1, bk1, c).

End Run.

(** ** The vectorized environments ([env_wrappers.py], lines 324-471) *)

Module Env.

(** The [done] a multi-agent environment returns: one flag, or one per agent. *)
Inductive done_flag : Type :=
| DoneBool (b : bool)
| DoneArray (flags : list bool).

(** The test of lines 331-336 and 458-463: ['bool' in done.__class__.__name__]
    picks [if done], anything else [np.all(done)]. *)
Definition episode_over (done : done_flag) : bool :=
  match done with
  | DoneBool b => b
  | DoneArray flags => forallb (fun b => b) flags
  end.

(** [l[i] = v] *)
Fixpoint assign {A : Type} (i : nat) (v : A) (l : list A) : list A :=
  match i, l with
  | _, [] => []
  | O, _ :: l' => v :: l'
  | S i', h :: l' => h :: assign i' v l'
  end.

Section Substrate.

(** The environment behind a worker, as a state machine. *)
Variables env action obs sobs reward cost info avail : Type.
Variable env_step : env -> action -> env * (obs * sobs * reward * cost * done_flag * info * avail).
Variable env_reset : env -> env * (obs * sobs * avail).

(** What a worker sends back for ['step']. *)
Record step_reply : Type := StepReply
  { r_obs : obs; r_share_obs : sobs; r_reward : reward; r_cost : cost;
    r_done : done_flag; r_info : info; r_available_actions : avail }.

Definition to_reply (t : obs * sobs * reward * cost * done_flag * info * avail) : step_reply :=
  let '(ob, s_ob, rew, cos, done, inf, avail_actions) := t in
  StepReply ob s_ob rew cos done inf avail_actions.

(** What the auto-reset does to one stepped environment and its reply: the
    observation, the shared observation and the available actions are
    replaced by those of [reset()], the rest of the reply stays. *)
Definition reset_one (e1 : env) (rep : step_reply) : env * step_reply :=
  if episode_over (r_done rep) then
    let '(e2, (ob, s_ob, available_actions)) := env_reset e1 in
    (e2, StepReply ob s_ob (r_reward rep) (r_cost rep) (r_done rep) (r_info rep)
                   available_actions)
  else (e1, rep).

(** The same, environment by environment. *)
Fixpoint reset_each (envs : list env) (reps : list step_reply)
  : list env * list step_reply :=
  match envs, reps with
  | e :: envs', rep :: reps' =>
      let '(e', rep') := reset_one e rep in
      let '(es, rs) := reset_each envs' reps' in
      (e' :: es, rep' :: rs)
  | _, _ => (envs, [])
  end.

(** [shareworker], the branch [cmd == 'step'] (lines 329-338). *)
Definition worker_step (e : env) (data : action) : env * step_reply :=
  let '(e1, (ob, s_ob, rew, cos, done, inf, available_actions)) := env_step e data in
  if episode_over done then
    let '(e2, (ob, s_ob, available_actions)) := env_reset e1 in
    (e2, StepReply ob s_ob rew cos done inf available_actions)
  else
    (e1, StepReply ob s_ob rew cos done inf available_actions).

(** [shareworker], the branch [cmd == 'reset'] (lines 339-341). *)
Definition worker_reset (e : env) : env * (obs * sobs * avail) := env_reset e.

(** [ShareSubprocVecEnv.step]: [step_async] sends one action to each remote,
    [step_wait] receives each worker's reply. *)
Fixpoint subproc_step (workers : list env) (actions : list action)
  : list env * list step_reply :=
  match workers, actions with
  | e :: workers', a :: actions' =>
      let '(e', rep) := worker_step e a in
      let '(es, reps) := subproc_step workers' actions' in
      (e' :: es, rep :: reps)
  | _, _ => (workers, [])
  end.

(** [ShareDummyVecEnv.step_wait], first line: every environment steps. *)
Fixpoint dummy_results (envs : list env) (actions : list action)
  : list env * list step_reply :=
  match envs, actions with
  | e :: envs', a :: actions' =>
      let '(e1, t) := env_step e a in
      let '(es, reps) := dummy_results envs' actions' in
      (e1 :: es, to_reply t :: reps)
  | _, _ => (envs, [])
  end.

(** The [for i, done in enumerate(dones)] loop from index [i] on: [dones]
    is what is left to enumerate; the environments and the replies are
    updated at index [i]. *)
Fixpoint dummy_resets (i : nat) (dones : list done_flag)
  (st : list env * list step_reply) : list env * list step_reply :=
  match dones with
  | [] => st
  | done :: dones' =>
      let '(envs, reps) := st in
      let st' :=
        if episode_over done then
          match nth_error envs i, nth_error reps i with
          | Some e, Some rep =>
              let '(e', (ob, s_ob, available_actions)) := env_reset e in
              (assign i e' envs,
               assign i (StepReply ob s_ob (r_reward rep) (r_cost rep) (r_done rep)
                                   (r_info rep) available_actions) reps)
          | _, _ => st
          end
        else st in
      dummy_resets (S i) dones' st'
  end.

(** [ShareDummyVecEnv.step_wait] *)
Definition dummy_step_wait (envs : list env) (actions : list action)
  : list env * list step_reply :=
  let '(envs1, reps) := dummy_results envs actions in
  dummy_resets 0 (map r_done reps) (envs1, reps).

End Substrate.
End Env.

(** ** The multipliers and the direction as the specification words them *)

Module DualSpec.
Import Num Cpo.

(** Clamping [t] into the interval [I]: no lower than its lower end, no
    higher than its upper end. *)
Definition clamp (I : Q * upper) (t : Q) : Q :=
  match snd I with
  | Inf => Qmax (fst I) t
  | Fin h => Qmax (fst I) (Qmin h t)
  end.

(** The closed-form dual value on the branch of [sqrt(A/B)] and on the
    branch of [sqrt(q/(2*max_kl))]. *)
Definition dual_a (A B r c s lam : Q) : Q :=
  - (1 # 2) * (A / (lam + EPS) + B * lam) - r * c / (s + EPS).

Definition dual_b (q lam : Q) : Q :=
  - (1 # 2) * (q / (lam + EPS) + 2 * max_kl * lam).

(** The two intervals [[0, r/c]] and [[r/c, +inf)], swapped when [c >= 0]. *)
Definition intervals (r c : Q) : (Q * upper) * (Q * upper) :=
  if Qltb c 0 then ((0, Fin (r / c)), (r / c, Inf))
  else ((r / c, Inf), (0, Fin (r / c))).

Definition spec_multipliers (sqrt : Q -> Q) (k : nat) (q r s c A B : Q) : Q * Q :=
  match k with
  | 3%nat | 4%nat => (sqrt (q / (2 * max_kl)), 0)
  | 1%nat | 2%nat =>
      let cand_a := clamp (fst (intervals r c)) (sqrt (A / B)) in
      let cand_b := clamp (snd (intervals r c)) (sqrt (q / (2 * max_kl))) in
      let lam :=
        if Qle_bool (dual_b q cand_b) (dual_a A B r c s cand_a) then cand_a else cand_b in
      (lam, Qmax 0 (lam * c - r) / (s + EPS))
  | _ => (0, sqrt (2 * max_kl / (s + EPS)))
  end.

Definition spec_direction (k : nat) (lam nu : Q) (v w : vec) : vec :=
  match k with
  | O => vscale nu w
  | S _ => map (fun t => t / (lam + EPS)) (vadd v (vscale nu w))
  end.

End DualSpec.

(** ** The acceptance test of the line search as the specification words it *)

Module LineSearchSpec.
Import Num Cpo.

Section Predicates.
Variables kl_value surr_adv surr_cost : vec -> Q.
Variables current_policy x : vec.
Variable optim_case : nat.
Variables c surrogate_loss surrogate_cost_loss : Q.

(** The three predicates at [theta' = theta - e*x]: the KL divergence is
    within [max_kl]; the surrogate return did not decrease (asked only when
    the case is greater than 1); the surrogate cost rose by no more than
    [max(-c, 0)]. *)
Definition acceptable (e : Q) : Prop :=
  let theta' := vsub current_policy (vscale e x) in
  kl_value theta' <= max_kl
  /\ ((1 < optim_case)%nat -> surrogate_loss <= surr_adv theta')
  /\ surr_cost theta' - surrogate_cost_loss <= Qmax (- c) 0.

(** No trial point trips the assertion [kl_value.item() >= 0]. *)
Definition kl_never_negative (cands : list Q) : Prop :=
  Forall (fun e => 0 <= kl_value (vsub current_policy (vscale e x))) cands.

End Predicates.

(** An evaluation of the actor depends on the parameters as numbers. *)
Definition respects_veq (f : vec -> Q) : Prop :=
  forall a b, veq a b -> f a == f b.

End LineSearchSpec.

(** ** Concrete inputs on which the embedding is run *)

Module Samples.
Import Num.

(** A model of two blocks, of sizes 2x2 and 3. *)
Definition two_blocks : @Flat.model nat :=
  [Flat.Tensor [2; 2]%nat [1; 2; 3; 4]%nat; Flat.Tensor [3]%nat [5; 6; 7]%nat].

(** A stand-in for [torch.sqrt] that computes: the square root rounded down
    to six decimals. *)
Definition sqrt_6 (t : Q) : Q :=
  Z.sqrt (Qnum t * 1000000000000 / Zpos (Qden t)) # 1000000.

(** A Fisher-vector product: the Hessian is the identity, the damping 0.1. *)
Definition Fvp_id (v : vec) : vec := vadd v (vscale (1 # 10) v).

(** The stub rollout: two environments, horizon 5, reward 1 and cost 0 at
    every step, [done] raised by both at step 5. *)
Definition stub_rollout : list (vec * vec * vec) :=
  repeat ([1; 1], [0; 0], [0; 0]) 4 ++ [([1; 1], [0; 0], [1; 1])].

(** A rollout of two steps in which no episode ends. *)
Definition unfinished_rollout : list (vec * vec * vec) :=
  [([1; 1], [3; 0], [0; 0]); ([1; 1], [0; 2], [0; 0])].

(** A minibatch for the line search: the KL divergence is the squared
    distance to the pre-step parameters, the surrogate return grows and the
    surrogate cost falls along the direction. *)
Definition theta0 : vec := [1; 2].
Definition dir0 : vec := [100; 0].
Definition kl0 (th : vec) : Q := matmul (vsub th theta0) (vsub th theta0).
Definition surr0 (th : vec) : Q := - matmul th [1; 1].
Definition cost0 (th : vec) : Q := matmul th [1; 1].

(** A stub environment of two agents: its state and its observation count
    the steps of the episode, every step pays reward 1 and cost 0, and both
    agents are done at step 5. *)
Definition stub_step (n : nat) (_ : unit)
  : nat * (nat * nat * Q * Q * Env.done_flag * unit * unit) :=
  (S n, (S n, S n, 1, 0, Env.DoneArray [(S n =? 5)%nat; (S n =? 5)%nat], tt, tt)).

Definition stub_reset (_ : nat) : nat * (nat * nat * unit) := (0%nat, (0%nat, 0%nat, tt)).

End Samples.

(** ** The Fisher-vector product ([cpo.py], lines 404-413) *)

Module Fisher.
Import Num.

(** [self.damping = 0.1] *)
Definition damping : Q := 1 # 10.

(** [Fvp(v)]: [hvp] is the Hessian-vector product [flat_grad_grad_kl] the
    two passes of [torch.autograd.grad] compute from [v]; the source returns
    [flat_grad_grad_kl + v * self.damping]. *)
Definition Fvp (hvp : vec -> vec) (v : vec) : vec :=
  vadd (hvp v) (map (fun t => t * damping) v).

End Fisher.

(** ** The multi-agent wrapper and the worker loop ([env_wrappers.py]) *)

Module Worker.
Import Env.
Import String.StringSyntax.
Local Open Scope string_scope.

(** [ShareEnv.step], lines 163-168: [dones[agent] = terminations[agent] or
    truncations[agent]], agent by agent, then [list(dones.values())]. *)
Fixpoint share_dones (terminations truncations : list bool) : list bool :=
  match terminations, truncations with
  | t :: terminations', u :: truncations' => (t || u) :: share_dones terminations' truncations'
  | _, _ => []
  end.

(** [ShareEnv._get_avail_actions]: [np.ones(shape=(n_agents, n_actions))]. *)
Definition get_avail_actions (n_agents n_actions : nat) : list (list Q) :=
  repeat (repeat 1%Q n_actions) n_agents.

(** A request as [shareworker] reads it: the command tag and its data. *)
Inductive request (action vdata : Type) : Type :=
| Step (data : action)
| Reset
| ResetTask
| Render (mode : String.string)
| Close
| GetSpaces
| RenderVulnerability (data : vdata)
| GetNumAgents
| Unknown (cmd : String.string).

Arguments Step {action vdata} data.
Arguments Reset {action vdata}.
Arguments ResetTask {action vdata}.
Arguments Render {action vdata} mode.
Arguments Close {action vdata}.
Arguments GetSpaces {action vdata}.
Arguments RenderVulnerability {action vdata} data.
Arguments GetNumAgents {action vdata}.
Arguments Unknown {action vdata} cmd.

(** How the loop of a worker stands: blocked in [remote.recv()], left by
    [break] after ['close'], or ended by [raise NotImplementedError]. *)
Inductive status : Type :=
| Receiving
| Closed
| NotImplemented.

Section Loop.

Variables env action obs sobs reward cost info avail : Type.
Variables task_obs frame spaces vdata : Type.
Variable env_step : env -> action -> env * (obs * sobs * reward * cost * done_flag * info * avail).
Variable env_reset : env -> env * (obs * sobs * avail).
Variable env_reset_task : env -> env * task_obs.
Variable env_render : env -> String.string -> env * frame.
Variable env_render_vulnerability : env -> vdata -> env * frame.
Variable env_close : env -> env.
Variable env_spaces : env -> spaces.
Variable env_n_agents : env -> nat.

(** What [remote.send] carries back. *)
Inductive reply : Type :=
| StepResult (r : step_reply obs sobs reward cost info avail)
| ResetResult (r : obs * sobs * avail)
| TaskResult (ob : task_obs)
| Frame (fr : frame)
| Spaces (sp : spaces)
| NumAgents (n : nat).

(** One turn of the [while True] loop on the request [m]: the environment
    afterwards, what was sent, and how the loop stands. *)
Definition handle (e : env) (m : request action vdata) : env * list reply * status :=
  match m with
  | Step data =>
      let '(e', r) := worker_step env_step env_reset e data in
      (e', [StepResult r], Receiving)
  | Reset =>
      let '(e', r) := env_reset e in (e', [ResetResult r], Receiving)
  | ResetTask =>
      let '(e', ob) := env_reset_task e in (e', [TaskResult ob], Receiving)
  | Render mode =>
      if String.eqb mode "rgb_array" then
        let '(e', fr) := env_render e mode in (e', [Frame fr], Receiving)
      else if String.eqb mode "human" then
        (fst (env_render e mode), [], Receiving)
      else (e, [], Receiving)
  | Close => (env_close e, [], Closed)
  | GetSpaces => (e, [Spaces (env_spaces e)], Receiving)
  | RenderVulnerability data =>
      let '(e', fr) := env_render_vulnerability e data in (e', [Frame fr], Receiving)
  | GetNumAgents => (e, [NumAgents (env_n_agents e)], Receiving)
  | Unknown _ => (e, [], NotImplemented)
  end.

(** [shareworker] on the requests its pipe delivers, in order. *)
Fixpoint shareworker (e : env) (inbox : list (request action vdata))
  : env * list reply * status :=
  match inbox with
  | [] => (e, [], Receiving)
  | m :: inbox' =>
      let '(e1, sent, st) := handle e m in
      match st with
      | Receiving =>
          let '(e2, sent', st') := shareworker e1 inbox' in
          (e2, sent ++ sent', st')
      | _ => (e1, sent, st)
      end
  end.

(** The requests that are answered by one [remote.send]. *)
Definition answered (m : request action vdata) : bool :=
  match m with
  | Step _ | Reset | ResetTask | GetSpaces | RenderVulnerability _ | GetNumAgents => true
  | Render mode => String.eqb mode "rgb_array"
  | Close | Unknown _ => false
  end.

(** The requests after which the loop goes on. *)
Definition continues (m : request action vdata) : bool :=
  match m with
  | Close | Unknown _ => false
  | _ => true
  end.

(** [reset()] of both substrates: every environment is reset, in order. *)
Fixpoint vec_reset (envs : list env) : list env * list (obs * sobs * avail) :=
  match envs with
  | [] => ([], [])
  | e :: envs' =>
      let '(e', r) := env_reset e in
      let '(es, rs) := vec_reset envs' in
      (e' :: es, r :: rs)
  end.

(** A call on a vectorized environment, and what it returns. *)
Inductive call : Type :=
| CallReset
| CallStep (actions : list action).

Inductive returned : Type :=
| ResetBatch (r : list (obs * sobs * avail))
| StepBatch (r : list (step_reply obs sobs reward cost info avail)).

(** A sequence of calls on [ShareSubprocVecEnv] and on [ShareDummyVecEnv]. *)
Fixpoint subproc_run (envs : list env) (calls : list call) : list env * list returned :=
  match calls with
  | [] => (envs, [])
  | CallReset :: calls' =>
      let '(envs1, r) := vec_reset envs in
      let '(envs2, out) := subproc_run envs1 calls' in
      (envs2, ResetBatch r :: out)
  | CallStep actions :: calls' =>
      let '(envs1, r) := subproc_step env_step env_reset envs actions in
      let '(envs2, out) := subproc_run envs1 calls' in
      (envs2, StepBatch r :: out)
  end.

Fixpoint dummy_run (envs : list env) (calls : list call) : list env * list returned :=
  match calls with
  | [] => (envs, [])
  | CallReset :: calls' =>
      let '(envs1, r) := vec_reset envs in
      let '(envs2, out) := dummy_run envs1 calls' in
      (envs2, ResetBatch r :: out)
  | CallStep actions :: calls' =>
      let '(envs1, r) := dummy_step_wait env_step env_reset envs actions in
      let '(envs2, out) := dummy_run envs1 calls' in
      (envs2, StepBatch r :: out)
  end.

End Loop.
End Worker.

(** ** The IPO policy loss ([ipo.py], lines 40-60) *)

Module Ipo.
Import Num.

(** [torch.clamp(x, lo, hi)] *)
Definition clamp (x lo hi : Q) : Q := Qmin (Qmax x lo) hi.

(** [t.mean()]; an empty tensor has no mean. *)
Definition mean (t : vec) : option Q :=
  match t with
  | [] => None
  | _ => Some (fold_right Qplus 0 t / inject_Z (Z.of_nat (length t)))
  end.

(** Lines 49-55: [c = cost_limit - ep_costs], [penalty = kappa / (c + 1e-8)],
    replaced by [penalty_max] when negative or above it.  No value when the
    denominator is exactly 0. *)
Definition penalty (kappa penalty_max cost_limit ep_costs : Q) : option Q :=
  let c := cost_limit - ep_costs in
  if Qeq_bool (c + (1 # 100000000)) 0 then None
  else
    let penalty := kappa / (c + (1 # 100000000)) in
    Some (if Qltb penalty 0 || Qltb penalty_max penalty then penalty_max else penalty).

(** Lines 44-47: the clipped surrogates, from the ratios
    [exp(_log_p - data['log_p'])] and the two advantages. *)
Definition ratio_clip (clip : Q) (ratio : vec) : vec :=
  map (fun r => clamp r (1 - clip) (1 + clip)) ratio.

Definition surr_adv (clip : Q) (ratio adv : vec) : option Q :=
  mean (map2 Qmin (map2 Qmult ratio adv) (map2 Qmult (ratio_clip clip ratio) adv)).

Definition surr_cadv (clip : Q) (ratio cost_adv : vec) : option Q :=
  mean (map2 Qmax (map2 Qmult ratio cost_adv) (map2 Qmult (ratio_clip clip ratio) cost_adv)).

(** Line 59: [loss_pi = -surr_adv + penalty * surr_cadv]. *)
Definition loss_pi (clip kappa penalty_max cost_limit ep_costs : Q)
  (ratio adv cost_adv : vec) : option Q :=
  match surr_adv clip ratio adv, surr_cadv clip ratio cost_adv,
        penalty kappa penalty_max cost_limit ep_costs with
  | Some sa, Some sc, Some p => Some (- sa + p * sc)
  | _, _, _ => None
  end.

(** The same loss without the clipping of the ratios. *)
Definition loss_unclipped (kappa penalty_max cost_limit ep_costs : Q)
  (ratio adv cost_adv : vec) : option Q :=
  match mean (map2 Qmult ratio adv), mean (map2 Qmult ratio cost_adv),
        penalty kappa penalty_max cost_limit ep_costs with
  | Some sa, Some sc, Some p => Some (- sa + p * sc)
  | _, _, _ => None
  end.

End Ipo.

(** ** The observations of [ShareEnv] ([env_wrappers.py], lines 96-119) *)

Module ShareObs.
Import Num Run.

(** [agent_id_feats = np.zeros(n_agents)], then [agent_id_feats[a] = 1.0]. *)
Definition agent_id_feats (n_agents a : nat) : vec := put a 1 (repeat 0 n_agents).

(** [np.concatenate([state, agent_id_feats])] *)
Definition raw_obs (state : vec) (n_agents a : nat) : vec :=
  state ++ agent_id_feats n_agents a.

(** [np.var]; [np.std] is its square root. *)
Definition variance (t : vec) : Q :=
  np_mean (map (fun v => (v - np_mean t) * (v - np_mean t)) t).

Section Normalize.

(** [np.sqrt] *)
Variable sqrt : Q -> Q.

(** [(obs_i - np.mean(obs_i)) / np.std(obs_i)]: no value when the standard
    deviation is exactly 0. *)
Definition normalize (t : vec) : option vec :=
  let std := sqrt (variance t) in
  if Qeq_bool std 0 then None
  else Some (map (fun v => (v - np_mean t) / std) t).

(** [_get_obs]: one observation per agent. *)
Definition get_obs (state : vec) (n_agents : nat) : list (option vec) :=
  map (fun a => normalize (raw_obs state n_agents a)) (seq 0 n_agents).

(** [_get_share_obs]: [(state - np.mean(state)) / (np.std(state) + 1e-8)],
    once per agent. *)
Definition get_share_obs (state : vec) (n_agents : nat) : list (option vec) :=
  let den := sqrt (variance state) + (1 # 100000000) in
  repeat (if Qeq_bool den 0 then None
          else Some (map (fun v => (v - np_mean state) / den) state)) n_agents.

End Normalize.
End ShareObs.

(** ** Sums and other measures used to state the properties *)

Module Tally.
Import Num Run.

(** Every entry of the vector is zero. *)
Definition null (a : vec) : Prop := Forall (fun t => t == 0) a.

(** The sum of the entries. *)
Definition vsum (t : vec) : Q := fold_right Qplus 0 t.

(** All the reward, and all the cost, the environments paid over the steps
    of a rollout. *)
Definition total_rewards (steps : list (vec * vec * vec)) : Q :=
  fold_right (fun tr acc => vsum (fst (fst tr)) + acc) 0 steps.

Definition total_costs (steps : list (vec * vec * vec)) : Q :=
  fold_right (fun tr acc => vsum (snd (fst tr)) + acc) 0 steps.

(** The same running sums, with the lists of finished episodes emptied. *)
Definition fresh (bk : books) : books :=
  Books (cur_reward_sum bk) (cur_cost_sum bk) (cur_episode_length bk) [] [] [] [].

End Tally.

(** ** More concrete inputs *)

Module MoreSamples.
Import Num.

(** The remaining operations of the stub environment. *)
Definition stub_reset_task (n : nat) : nat * nat := (0%nat, 0%nat).
Definition stub_render (n : nat) (mode : String.string) : nat * nat := (n, n).
Definition stub_render_vulnerability (n : nat) (_ : unit) : nat * nat := (n, n).
Definition stub_close (n : nat) : nat := n.
Definition stub_spaces (n : nat) : unit := tt.
Definition stub_n_agents (n : nat) : nat := 2%nat.

(** A worker on the stub environment. *)
Definition stub_worker (e : nat) (inbox : list (Worker.request unit unit)) :=
  Worker.shareworker Samples.stub_step Samples.stub_reset stub_reset_task stub_render
    stub_render_vulnerability stub_close stub_spaces stub_n_agents e inbox.

(** A stand-in for [np.sqrt] that is positive on positive numbers: the
    square root rounded up to six decimals. *)
Definition sqrt_6_up (t : Q) : Q := Samples.sqrt_6 t + (1 # 1000000).

(** A minibatch of three transitions for the IPO loss. *)
Definition ratios : vec := [1 # 2; 1; 3 # 2].
Definition ratios_near : vec := [9 # 10; 1; 11 # 10].
Definition advantages : vec := [1; - (2); 3].
Definition cost_advantages : vec := [2; 1; - (1)].

End MoreSamples.

(** * Part II: the properties *)

(** ** Flatten and restore *)

Module FlatFacts.
Import Flat Samples.
Local Open Scope nat_scope.

Section Params.
Context {T : Type}.
Implicit Types (m ps : @model T) (v : list T).

Lemma get_flat_params_data m : get_flat_params m = concat (map data m).
Proof.
  unfold get_flat_params, flatten. rewrite map_map. reflexivity.
Qed.

Lemma get_flat_params_cons (p : tensor) ps :
  get_flat_params (p :: ps) = data p ++ get_flat_params ps.
Proof. rewrite !get_flat_params_data. reflexivity. Qed.

Lemma total_count_cons (p : tensor) ps :
  total_count (p :: ps) = length (data p) + total_count ps.
Proof.
  unfold total_count. rewrite get_flat_params_cons, length_app. reflexivity.
Qed.

Lemma slice_length v i n : length (slice v i (i + n)) = Nat.min n (length v - i).
Proof.
  unfold slice. replace (i + n - i) with n by lia.
  rewrite length_firstn, length_skipn. reflexivity.
Qed.

Lemma slice_middle (pre d post : list T) :
  slice (pre ++ d ++ post) (length pre) (length pre + length d) = d.
Proof.
  unfold slice. replace (length pre + length d - length pre) with (length d) by lia.
  rewrite skipn_app, skipn_all, Nat.sub_diag. simpl.
  rewrite firstn_app, firstn_all, Nat.sub_diag. simpl. apply app_nil_r.
Qed.

Lemma firstn_plus (n k : nat) (u : list T) :
  firstn (n + k) u = firstn n u ++ firstn k (skipn n u).
Proof.
  revert u. induction n as [|n IH]; intros [|a u]; simpl; try reflexivity.
  - now rewrite firstn_nil.
  - now rewrite IH.
Qed.

Lemma view_own_size (p : @tensor T) : tensor_wf p -> view (data p) (size p) = Some p.
Proof.
  unfold tensor_wf, view. intros ->. rewrite Nat.eqb_refl. destruct p; reflexivity.
Qed.

(** The loop restores the blocks it was flattened from, wherever they sit in
    the vector. *)
Lemma set_params_from_flat ps : Forall tensor_wf ps ->
  forall pre post,
    set_params_from (length pre) ps (pre ++ get_flat_params ps ++ post) = (ps, Done).
Proof.
  induction 1 as [|p ps Hp _ IH]; intros pre post; [reflexivity|].
  cbn [set_params_from view_flat data].
  rewrite get_flat_params_cons, <- app_assoc, slice_middle, (view_own_size Hp).
  rewrite <- length_app.
  replace (pre ++ data p ++ get_flat_params ps ++ post)
    with ((pre ++ data p) ++ get_flat_params ps ++ post) by (rewrite <- app_assoc; reflexivity).
  rewrite IH. reflexivity.
Qed.

(** A vector that is too short makes some [view] raise. *)
Lemma set_params_from_short ps : Forall tensor_wf ps ->
  forall index v, index <= length v -> length v < index + total_count ps ->
    snd (set_params_from index ps v) = ShapeMismatch.
Proof.
  induction 1 as [|p ps Hp _ IH]; intros index v Hi Hlt.
  - unfold total_count in Hlt. simpl in Hlt. lia.
  - rewrite total_count_cons in Hlt.
    cbn [set_params_from view_flat data]. unfold view.
    rewrite slice_length, <- Hp.
    destruct (Nat.eqb_spec (Nat.min (length (data p)) (length v - index)) (length (data p)))
      as [E|E]; [|reflexivity].
    specialize (IH (index + length (data p)) v).
    destruct (set_params_from (index + length (data p)) ps v) as [rest' o].
    simpl in *. apply IH; lia.
Qed.

(** A vector that is long enough is accepted: the blocks keep their sizes and
    receive the first [total_count] entries from [index] on, in order. *)
Lemma set_params_from_long ps : Forall tensor_wf ps ->
  forall index v, index + total_count ps <= length v ->
    exists ps', set_params_from index ps v = (ps', Done)
      /\ map size ps' = map size ps
      /\ get_flat_params ps' = firstn (total_count ps) (skipn index v).
Proof.
  induction 1 as [|p ps Hp _ IH]; intros index v Hle.
  - exists []. repeat split.
  - rewrite total_count_cons in *.
    cbn [set_params_from view_flat data]. unfold view.
    rewrite slice_length, <- Hp.
    replace (Nat.min (length (data p)) (length v - index)) with (length (data p)) by lia.
    rewrite Nat.eqb_refl.
    destruct (IH (index + length (data p)) v) as (ps' & -> & Hs & Hd); [lia|].
    eexists. split; [reflexivity|]. split; [simpl; now rewrite Hs|].
    rewrite get_flat_params_cons, Hd. cbn [data]. unfold slice.
    replace (index + length (data p) - index) with (length (data p)) by lia.
    rewrite (Nat.add_comm index), <- skipn_skipn.
    symmetry. apply firstn_plus.
Qed.

(** C6. Flatten/restore round trip: for every model (a sequence of
    well-formed parameter blocks of any sizes and any element type),
    [set_params(model, get_flat_params(model))] returns normally and leaves
    every block, size and elements, identical to what it was. *)
Theorem set_params_get_flat_params m :
  Forall tensor_wf m -> set_params m (get_flat_params m) = (m, Done).
Proof.
  intros Hm. unfold set_params.
  pose proof (set_params_from_flat Hm [] []) as H.
  simpl in H. rewrite app_nil_r in H. exact H.
Qed.

(** C8, as the code has it.  [set_params] writes the vector into the blocks
    by contiguous slices in order.  It raises exactly when the vector is
    shorter than the model's total parameter count; a vector at least that
    long is accepted, the blocks keep their sizes and receive its first
    [total_count] entries, and any surplus is ignored. *)
Theorem set_params_length m v :
  Forall tensor_wf m ->
  (length v < total_count m <-> snd (set_params m v) = ShapeMismatch)
  /\ (total_count m <= length v ->
      exists m', set_params m v = (m', Done)
        /\ map size m' = map size m
        /\ get_flat_params m' = firstn (total_count m) v).
Proof.
  intros Hm. split; [split|].
  - intros Hlt. apply set_params_from_short; [assumption|lia|simpl; lia].
  - intros Hraise. destruct (Nat.lt_ge_cases (length v) (total_count m)) as [|Hge]; [assumption|].
    destruct (@set_params_from_long m Hm 0 v) as (m' & E & _); [simpl; lia|].
    unfold set_params in Hraise. rewrite E in Hraise. discriminate.
  - intros Hge. apply (@set_params_from_long m Hm 0 v). simpl; lia.
Qed.

End Params.

Lemma two_blocks_wf : Forall tensor_wf two_blocks.
Proof. repeat constructor. Qed.

Lemma set_params_get_flat_params_witness :
  Forall tensor_wf two_blocks
  /\ set_params two_blocks (get_flat_params two_blocks) = (two_blocks, Done).
Proof.
  split; [exact two_blocks_wf|].
  apply (set_params_get_flat_params two_blocks_wf).
Defined.

Lemma set_params_length_witness :
  (length [10; 20; 30; 40; 50; 60] < total_count two_blocks
     <-> snd (set_params two_blocks [10; 20; 30; 40; 50; 60]) = ShapeMismatch)
  /\ (total_count two_blocks <= length [10; 20; 30; 40; 50; 60] ->
      exists m', set_params two_blocks [10; 20; 30; 40; 50; 60] = (m', Done)
        /\ map size m' = map size two_blocks
        /\ get_flat_params m' = firstn (total_count two_blocks) [10; 20; 30; 40; 50; 60]).
Proof.
  apply (@set_params_length nat two_blocks [10; 20; 30; 40; 50; 60] two_blocks_wf).
Defined.

(** C8 as stated fails: a vector one entry longer than the model is written
    without any error, its last entry dropped. *)
Lemma set_params_accepts_surplus :
  length [10; 20; 30; 40; 50; 60; 70; 80] <> total_count two_blocks
  /\ set_params two_blocks [10; 20; 30; 40; 50; 60; 70; 80]
     = ([Tensor [2; 2] [10; 20; 30; 40]; Tensor [3] [50; 60; 70]], Done).
Proof. split; [discriminate|reflexivity]. Qed.

(** On a vector that is too short the first block is already overwritten
    when the second [view] raises. *)
Example set_params_short_prefix :
  set_params two_blocks [10; 20; 30; 40; 50; 60]
  = ([Tensor [2; 2] [10; 20; 30; 40]; Tensor [3] [5; 6; 7]], ShapeMismatch).
Proof. reflexivity. Qed.

End FlatFacts.

(** ** Comparisons, divisions and vectors *)

Module NumFacts.
Import Num.

Lemma Qltb_lt x y : Qltb x y = true <-> x < y.
Proof.
  unfold Qltb. rewrite negb_true_iff, <- not_true_iff_false, Qle_bool_iff.
  split; [apply Qnot_le_lt | apply Qlt_not_le].
Qed.

Lemma Qltb_ge x y : Qltb x y = false <-> y <= x.
Proof.
  unfold Qltb. rewrite negb_false_iff. apply Qle_bool_iff.
Qed.

Lemma Qle_bool_gt x y : Qle_bool x y = false <-> y < x.
Proof.
  rewrite <- not_true_iff_false, Qle_bool_iff.
  split; [apply Qnot_le_lt | apply Qlt_not_le].
Qed.

(** Decide every comparison of a goal and hand the arithmetic to [lra]. *)
Ltac by_cases_on_tests :=
  repeat match goal with
  | |- context [Qltb ?a ?b] =>
      let E := fresh "E" in
      destruct (Qltb a b) eqn:E;
      [apply Qltb_lt in E | apply Qltb_ge in E]
  | |- context [Qle_bool ?a ?b] =>
      let E := fresh "E" in
      destruct (Qle_bool a b) eqn:E;
      [apply Qle_bool_iff in E | apply Qle_bool_gt in E]
  end.

Lemma pymax_ge_l a b : a <= pymax a b.
Proof. unfold pymax. by_cases_on_tests; lra. Qed.

Lemma pymax_ge_r a b : b <= pymax a b.
Proof. unfold pymax. by_cases_on_tests; lra. Qed.

Lemma pymax_cases a b : (a < b /\ pymax a b = b) \/ (b <= a /\ pymax a b = a).
Proof. unfold pymax. by_cases_on_tests; [left|right]; split; trivial. Qed.

Lemma pymin_cases a b : (b < a /\ pymin a b = b) \/ (a <= b /\ pymin a b = a).
Proof. unfold pymin. by_cases_on_tests; [left|right]; split; trivial. Qed.

Lemma div_defined d x y : ~ y == 0 -> div d x y = Ok (x / y).
Proof.
  intros H. unfold div. destruct (Qeq_bool y 0) eqn:E; [|reflexivity].
  apply Qeq_bool_iff in E. contradiction.
Qed.

Lemma div_cases d x y :
  (y == 0 /\ div d x y = DivByZero d) \/ (~ y == 0 /\ div d x y = Ok (x / y)).
Proof.
  unfold div. destruct (Qeq_bool y 0) eqn:E.
  - left. split; [now apply Qeq_bool_iff|reflexivity].
  - right. split; [now apply Qeq_bool_neq|reflexivity].
Qed.

Lemma EPS_pos : 0 < EPS.
Proof. reflexivity. Qed.

Lemma guarded_denominator t : 0 <= t -> ~ t + EPS == 0.
Proof. pose proof EPS_pos. intros H1 H2. lra. Qed.

End NumFacts.

(** ** The dual optimizer *)

Module CpoFacts.
Import Num Cpo DualSpec NumFacts Samples.
Local Open Scope result_scope.

(** The case computed inside the update is the one of [select_case]. *)
Lemma region_case Fvp b v approx_g q c k w r s A B :
  region Fvp b v approx_g q c = Ok (k, w, r, s, A, B) ->
  k = select_case (matmul b b) c B.
Proof.
  unfold region, select_case. destruct (pure_return (matmul b b) c).
  - now intros [= <- _ _ _ _ _].
  - destruct (cg_solver Fvp b) as [w0|d|]; cbn [bind]; try discriminate.
    match goal with |- context [div DivA ?a ?b] =>
      destruct (div_cases DivA a b) as [[_ ->]|[_ ->]] end; cbn [bind]; try discriminate.
    match goal with |- context [div DivB ?a ?b] =>
      destruct (div_cases DivB a b) as [[_ ->]|[_ ->]] end; cbn [bind]; try discriminate.
    now intros [= <- _ _ _ _ <-].
Qed.

(** C1. The classification step is a function into the five cases 0..4,
    and each case is selected under exactly one condition on its inputs:
    case 4 exactly when [b.b <= 1e-8] and [c < 0]; and otherwise case 3
    exactly when [c < 0] and [B < 0], case 2 exactly when [c < 0] and
    [B >= 0], case 1 exactly when [c >= 0] and [B >= 0], case 0 exactly
    when [c >= 0] and [B < 0].  The case the update computes on the way to
    its direction is this one. *)
Theorem select_case_exhaustive_exclusive (bb c B : Q) :
  let k := select_case bb c B in
  let shortcut := bb <= 1 # 100000000 /\ c < 0 in
  In k [0; 1; 2; 3; 4]%nat
  /\ (k = 4%nat <-> shortcut)
  /\ (k = 3%nat <-> ~ shortcut /\ c < 0 /\ B < 0)
  /\ (k = 2%nat <-> ~ shortcut /\ c < 0 /\ 0 <= B)
  /\ (k = 1%nat <-> ~ shortcut /\ 0 <= c /\ 0 <= B)
  /\ (k = 0%nat <-> ~ shortcut /\ 0 <= c /\ B < 0)
  /\ (forall Fvp b v approx_g q k' w r s A,
        region Fvp b v approx_g q c = Ok (k', w, r, s, A, B) ->
        k' = select_case (matmul b b) c B).
Proof.
  cbv zeta. unfold select_case at 1 2 3 4 5 6, pure_return, classify.
  by_cases_on_tests; cbn [andb In];
    repeat split; intros; try discriminate; try lra; try tauto;
    try (eapply region_case; eassumption);
    repeat match goal with H : _ /\ _ |- _ => destruct H end; lra.
Qed.

(** The shortcut on a vanishing cost gradient and a feasible [c = -1]. *)
Lemma select_case_exhaustive_exclusive_witness :
  4%nat = select_case (matmul [0; 0] [0; 0]) (-1) 0.
Proof.
  destruct (select_case_exhaustive_exclusive 0 (-1) 0) as (_ & _ & _ & _ & _ & _ & H).
  apply (H Fvp_id [0; 0] [1; 1] [1; 1] 1 4%nat (zeros_like [1; 1]) 0 0 0).
  reflexivity.
Defined.

Lemma pymax_Qmax a b : pymax a b = Qmax a b.
Proof.
  unfold pymax, Qmax, GenericMinMax.gmax.
  by_cases_on_tests.
  - destruct (a ?= b) eqn:C; try reflexivity;
      [apply Qeq_alt in C | apply Qgt_alt in C]; lra.
  - destruct (a ?= b) eqn:C; try reflexivity.
    apply Qlt_alt in C. lra.
Qed.

Lemma pymin_Qmin a b : pymin a b = Qmin a b.
Proof.
  unfold pymin, Qmin, GenericMinMax.gmin.
  by_cases_on_tests.
  - destruct (a ?= b) eqn:C; try reflexivity;
      [apply Qeq_alt in C | apply Qlt_alt in C]; lra.
  - destruct (a ?= b) eqn:C; try reflexivity.
    apply Qgt_alt in C. lra.
Qed.

Lemma proj_clamp t I : proj t I = clamp I t.
Proof.
  unfold proj, clamp, min_upper. destruct (snd I); now rewrite pymax_Qmax, ?pymin_Qmin.
Qed.

Lemma clamp_in_interval lo hi t :
  lo <= hi ->
  lo <= clamp (lo, Fin hi) t <= hi
  /\ (lo <= t <= hi -> clamp (lo, Fin hi) t == t)
  /\ (t < lo -> clamp (lo, Fin hi) t == lo)
  /\ (hi < t -> clamp (lo, Fin hi) t == hi).
Proof.
  intros H. rewrite <- proj_clamp. unfold proj, min_upper; cbn [fst snd].
  destruct (pymin_cases hi t) as [[H1 ->]|[H1 ->]];
    destruct (pymax_cases lo t) as [[H2 E2]|[H2 E2]];
    destruct (pymax_cases lo hi) as [[H3 E3]|[H3 E3]];
    rewrite ?E2, ?E3; repeat split; intros; try lra.
Qed.

Lemma clamp_above lo t :
  lo <= clamp (lo, Inf) t
  /\ (lo <= t -> clamp (lo, Inf) t == t)
  /\ (t < lo -> clamp (lo, Inf) t == lo).
Proof.
  rewrite <- proj_clamp. unfold proj, min_upper; cbn [fst snd].
  destruct (pymax_cases lo t) as [[H2 ->]|[H2 ->]]; repeat split; intros; try lra.
Qed.

Lemma div_lam q : div DivLam q (2 * max_kl) = Ok (q / (2 * max_kl)).
Proof. reflexivity. Qed.

Section Dual.
Variable sqrt : Q -> Q.
Hypothesis sqrt_nonneg : forall t, 0 <= sqrt t.

Lemma clamp_intervals_nonneg r c t :
  0 <= t -> 0 <= clamp (fst (intervals r c)) t /\ 0 <= clamp (snd (intervals r c)) t.
Proof.
  intros Ht. rewrite <- !proj_clamp. unfold intervals, proj, min_upper.
  destruct (Qltb c 0); cbn [fst snd]; split;
    first [apply pymax_ge_l | eapply Qle_trans; [exact Ht | apply pymax_ge_r]].
Qed.

Lemma spec_lam_nonneg k q r s c A B : 0 <= fst (spec_multipliers sqrt k q r s c A B).
Proof.
  unfold spec_multipliers.
  destruct k as [|[|[|[|[|k]]]]]; cbn [fst]; try apply sqrt_nonneg; try apply Qle_refl.
  all: destruct (Qle_bool _ _); apply clamp_intervals_nonneg; apply sqrt_nonneg.
Qed.

Lemma f_a_spec A B r c s l :
  0 <= l -> 0 <= s -> f_a A B r c s l = Ok (dual_a A B r c s l).
Proof.
  intros Hl Hs. unfold f_a.
  rewrite (div_defined _ _ (guarded_denominator Hl)),
          (div_defined _ _ (guarded_denominator Hs)).
  reflexivity.
Qed.

Lemma f_b_spec q l : 0 <= l -> f_b q l = Ok (dual_b q l).
Proof.
  intros Hl. unfold f_b.
  rewrite (div_defined _ _ (guarded_denominator Hl)). reflexivity.
Qed.

Lemma multipliers_spec k q r s c A B :
  0 <= s -> (in_1_2 k = true -> ~ c == 0 /\ ~ B == 0) ->
  multipliers sqrt k q r s c A B = Ok (spec_multipliers sqrt k q r s c A B).
Proof.
  intros Hs Hk.
  assert (Hse : ~ s + EPS == 0) by now apply guarded_denominator.
  destruct k as [|[|[|[|[|k]]]]]; unfold multipliers, spec_multipliers;
    cbn [in_3_4 in_1_2 Nat.eqb orb];
    rewrite ?div_lam, ?(div_defined _ _ Hse); cbn [bind]; try reflexivity.
  all: destruct (Hk eq_refl) as [Hc HB].
  all: rewrite (div_defined _ _ Hc), (div_defined _ _ HB); cbn [bind].
  all: destruct (clamp_intervals_nonneg r c (sqrt_nonneg (A / B))) as [Ha _].
  all: destruct (clamp_intervals_nonneg r c (sqrt_nonneg (q / (2 * max_kl)))) as [_ Hb].
  all: revert Ha Hb; unfold intervals; destruct (Qltb c 0); cbn [fst snd bind];
    rewrite !proj_clamp; intros Ha Hb.
  all: rewrite (f_a_spec _ _ _ _ Ha Hs), (f_b_spec _ Hb); cbn [bind].
  all: rewrite (div_defined _ _ Hse); cbn [bind].
  all: rewrite pymax_Qmax; reflexivity.
Qed.

Lemma search_dir_spec k l n v w :
  0 <= l ->
  exists x, search_dir k l n v w = Ok x /\ veq x (spec_direction k l n v w).
Proof.
  intros Hl. unfold search_dir, spec_direction. destruct k as [|k]; cbn [Nat.ltb Nat.leb].
  - eexists. split; [reflexivity|]. unfold veq.
    induction (vscale n w); constructor; [reflexivity|assumption].
  - rewrite (div_defined _ _ (guarded_denominator Hl)). cbn [bind].
    eexists. split; [reflexivity|]. unfold veq, vscale at 1.
    induction (vadd v (vscale n w)); simpl; constructor; [|assumption].
    unfold Qdiv. ring.
Qed.

End Dual.

Section Guards.
Variable sqrt : Q -> Q.
Variable Fvp : vec -> vec.
Hypothesis sqrt_nonneg : forall t, 0 <= sqrt t.
Hypothesis Fvp_psd : forall p, 0 <= matmul p (Fvp p).

Lemma cg_iter_stops remaining : forall x r p,
  stops_unguarded (cg_iter Fvp remaining x r p).
Proof.
  induction remaining as [|n IH]; intros x r p; cbn [cg_iter];
    rewrite (div_defined _ _ (guarded_denominator (Fvp_psd p))); cbn [bind].
  - exact I.
  - match goal with |- context [div DivBeta ?a ?b] =>
      destruct (div_cases DivBeta a b) as [[_ ->]|[_ ->]] end; cbn [bind].
    + simpl. auto.
    + apply IH.
Qed.

Lemma multipliers_cases k q r s c A B :
  0 <= s ->
  multipliers sqrt k q r s c A B = Ok (spec_multipliers sqrt k q r s c A B)
  \/ multipliers sqrt k q r s c A B = DivByZero DivInterval
  \/ multipliers sqrt k q r s c A B = DivByZero DivAB.
Proof.
  intros Hs.
  destruct (in_1_2 k) eqn:Ek.
  - destruct (Qeq_dec c 0) as [Hc|Hc].
    { right; left. unfold multipliers.
      replace (in_3_4 k) with false
        by (destruct k as [|[|[|[|[|k]]]]]; try reflexivity; cbv in Ek; discriminate Ek).
      rewrite Ek. unfold div at 1. apply Qeq_bool_iff in Hc. now rewrite Hc. }
    destruct (Qeq_dec B 0) as [HB|HB].
    { right; right. unfold multipliers.
      replace (in_3_4 k) with false
        by (destruct k as [|[|[|[|[|k]]]]]; try reflexivity; cbv in Ek; discriminate Ek).
      rewrite Ek, (div_defined _ _ Hc). cbn [bind].
      destruct (Qltb c 0); unfold div at 1; apply Qeq_bool_iff in HB; now rewrite HB. }
    left. apply multipliers_spec; auto.
  - left. apply multipliers_spec; auto. intros H. congruence.
Qed.

Lemma region_stops b v approx_g q c :
  match region Fvp b v approx_g q c with
  | Ok (_, _, _, s, _, _) => 0 <= s
  | m => stops_unguarded m
  end.
Proof.
  unfold region. destruct (pure_return (matmul b b) c); [apply Qle_refl|].
  unfold cg_solver.
  pose proof (cg_iter_stops (max_iter - 1) (zeros_like b) b b) as Hcg.
  destruct (cg_iter Fvp (max_iter - 1) (zeros_like b) b b) as [w|d|]; cbn [bind];
    [|exact Hcg|exact Hcg].
  match goal with |- context [div DivA ?a ?b] =>
    destruct (div_cases DivA a b) as [[_ ->]|[_ ->]] end; cbn [bind]; [simpl; auto|].
  match goal with |- context [div DivB ?a ?b] =>
    destruct (div_cases DivB a b) as [[_ ->]|[_ ->]] end; cbn [bind]; [simpl; auto 6|].
  apply Fvp_psd.
Qed.

Lemma update_direction_stops g b c :
  stops_unguarded (update_direction sqrt Fvp g b c).
Proof.
  unfold update_direction, cg_solver.
  pose proof (cg_iter_stops (max_iter - 1) (zeros_like g) g g) as Hcg.
  destruct (cg_iter Fvp (max_iter - 1) (zeros_like g) g g) as [v|d|]; cbn [bind];
    [|exact Hcg|exact Hcg].
  pose proof (region_stops b v (Fvp v) (matmul v (Fvp v)) c) as Hreg.
  destruct (region Fvp b v (Fvp v) (matmul v (Fvp v)) c) as [[[[[[k w] r] s] A] B]|d|];
    cbn [bind]; [|exact Hreg|exact Hreg].
  destruct (multipliers_cases k (matmul v (Fvp v)) r c A B Hreg) as [E|[E|E]];
    rewrite E; cbn [bind]; [|simpl; auto 6|simpl; auto 6].
  pose proof (@spec_lam_nonneg sqrt sqrt_nonneg k (matmul v (Fvp v)) r s c A B) as Hl.
  destruct (spec_multipliers sqrt k (matmul v (Fvp v)) r s c A B) as [l n].
  cbn [fst] in Hl.
  destruct (search_dir_spec k n v w Hl) as (x & -> & _). exact I.
Qed.

End Guards.

Lemma sqrt_6_nonneg t : 0 <= sqrt_6 t.
Proof.
  unfold sqrt_6, Qle. cbn [Qnum Qden]. rewrite Z.mul_1_r. cbn [Z.mul].
  apply Z.sqrt_nonneg.
Qed.

Lemma Fvp_id_psd p : 0 <= matmul p (Fvp_id p).
Proof.
  unfold matmul, Fvp_id, vadd, vscale.
  induction p as [|t p IH]; simpl; [apply Qle_refl|].
  assert (H : 0 <= t * (t + (1 # 10) * t)) by nra.
  lra.
Qed.

(** C2. Given the case, the multipliers and the direction are the specified
    ones.  Wherever the divisions have a value ([s >= 0], a non-negative
    square root, and in cases 1 and 2 [c] and [B] different from 0) the code
    returns the pair of [spec_multipliers]: for cases 3 and 4
    [lam = sqrt(q/(2*max_kl))], [nu = 0]; for cases 1 and 2 the candidates
    [sqrt(A/B)] and [sqrt(q/(2*max_kl))] clamped into [[0, r/c]] and
    [[r/c, +inf)] (swapped when [c >= 0]), [lam] the candidate of larger
    dual value and [nu = max(0, lam*c - r)/(s+EPS)]; for case 0 [lam = 0],
    [nu = sqrt(2*max_kl/(s+EPS))]; and the direction is
    [(v + nu*w)/(lam+EPS)] when the case is positive, [nu*w] for case 0. *)
Theorem dual_optimizer_as_specified
  (sqrt : Q -> Q) (k : nat) (q r s c A B : Q) (v w : vec) :
  (forall t, 0 <= sqrt t) ->
  0 <= s ->
  (in_1_2 k = true -> ~ c == 0 /\ ~ B == 0) ->
  let lam := fst (spec_multipliers sqrt k q r s c A B) in
  let nu := snd (spec_multipliers sqrt k q r s c A B) in
  multipliers sqrt k q r s c A B = Ok (lam, nu)
  /\ exists x, search_dir k lam nu v w = Ok x /\ veq x (spec_direction k lam nu v w).
Proof.
  intros Hsqrt Hs Hk lam nu. split.
  - rewrite (@multipliers_spec sqrt Hsqrt k q r s c A B Hs Hk). subst lam nu.
    now destruct (spec_multipliers sqrt k q r s c A B).
  - apply search_dir_spec. apply spec_lam_nonneg. exact Hsqrt.
Qed.

Lemma dual_optimizer_as_specified_witness :
  let lam := fst (spec_multipliers sqrt_6 2 1 (-1) 1 (-1) 1 1) in
  let nu := snd (spec_multipliers sqrt_6 2 1 (-1) 1 (-1) 1 1) in
  multipliers sqrt_6 2 1 (-1) 1 (-1) 1 1 = Ok (lam, nu)
  /\ exists x, search_dir 2 lam nu [1; 2] [1; 0] = Ok x
              /\ veq x (spec_direction 2 lam nu [1; 2] [1; 0]).
Proof.
  apply (@dual_optimizer_as_specified sqrt_6 2 1 (-1) 1 (-1) 1 1 [1; 2] [1; 0]
           sqrt_6_nonneg).
  - lra.
  - intros _. split; lra.
Defined.

(** The same run, computed: case 2 with [q = 1], [r = -1], [s = 1],
    [c = -1], [A = B = 1] gives [lam = 5] (the clamped
    [sqrt(q/(2*max_kl))]) and [nu = 0]. *)
Example multipliers_case_2 :
  multipliers sqrt_6 2 1 (-1) 1 (-1) 1 1 = Ok (5000000 # 1000000, 0 # 100000001).
Proof. reflexivity. Qed.

(** C5, as the code has it.  The divisions of the update path that carry
    [+ EPS] (alpha of the conjugate gradient, the dual values [f_a] and
    [f_b], [nu], and the direction) never divide by zero when the
    Fisher-vector product is positive semi-definite; neither does
    [q/(2*max_kl)].  The update can divide by exactly zero only at one of the
    five divisions written without [EPS]: beta of the conjugate gradient,
    [r**2/s], [c**2/s], [r/c] and [A/B]. *)
Theorem zero_denominator_only_unguarded
  (sqrt : Q -> Q) (Fvp : vec -> vec) (g b : vec) (c : Q) (d : site) :
  (forall t, 0 <= sqrt t) ->
  (forall p, 0 <= matmul p (Fvp p)) ->
  update_direction sqrt Fvp g b c = DivByZero d ->
  guarded d = false /\ In d [DivBeta; DivA; DivB; DivInterval; DivAB].
Proof.
  intros Hsqrt Hpsd E.
  pose proof (@update_direction_stops sqrt Fvp Hsqrt Hpsd g b c) as H.
  rewrite E in H. simpl in H. split; [|exact H].
  decompose [or] H; subst; try reflexivity; contradiction.
Qed.

(** C5 as stated fails: when the reward gradient vanishes, the first pass of
    the conjugate gradient divides by [r.r = 0]. *)
Lemma vanishing_gradient_divides_by_zero :
  update_direction sqrt_6 Fvp_id [0; 0] [1; 0] 1 = DivByZero DivBeta.
Proof. reflexivity. Qed.

Lemma zero_denominator_only_unguarded_witness :
  guarded DivBeta = false /\ In DivBeta [DivBeta; DivA; DivB; DivInterval; DivAB].
Proof.
  apply (@zero_denominator_only_unguarded sqrt_6 Fvp_id [0; 0] [1; 0] 1 DivBeta
           sqrt_6_nonneg Fvp_id_psd).
  reflexivity.
Defined.

(** Two more of the divisions without [EPS]: [r/c] when [c = 0], the value
    an empty rollout passes, and [A/B] when [B = 0]. *)
Example interval_bound_divides_by_zero :
  multipliers sqrt_6 1 1 1 1 0 1 1 = DivByZero DivInterval.
Proof. reflexivity. Qed.

Example candidate_divides_by_zero :
  multipliers sqrt_6 2 1 1 1 (-1) 1 0 = DivByZero DivAB.
Proof. reflexivity. Qed.

End CpoFacts.

(** ** The constrained line search *)

Module LineSearchFacts.
Import Num Cpo NumFacts CpoFacts Samples LineSearchSpec.
Local Open Scope result_scope.

Lemma vsub_null_step e a x :
  e == 0 -> length x = length a -> veq (vsub a (vscale e x)) a.
Proof.
  intros He. revert x. induction a as [|t a IH]; intros [|y x] H; simpl in *; try discriminate.
  - constructor.
  - constructor; [rewrite He; ring | apply IH; congruence].
Qed.

Section Search.
Variables kl_value surr_adv surr_cost : vec -> Q.
Variables current_policy x : vec.
Variable optim_case : nat.
Variables c surrogate_loss surrogate_cost_loss : Q.

Local Notation "'trial'" := (set_and_eval kl_value surr_adv surr_cost current_policy x
                           optim_case c surrogate_loss surrogate_cost_loss).
Local Notation "'loop'" := (search kl_value surr_adv surr_cost current_policy x
                           optim_case c surrogate_loss surrogate_cost_loss).
Local Notation "'ok'" := (acceptable kl_value surr_adv surr_cost current_policy x
                           optim_case c surrogate_loss surrogate_cost_loss).
Local Notation "'safe'" := (kl_never_negative kl_value current_policy x).

(** Past the assertion, [set_and_eval] answers the three predicates. *)
Lemma set_and_eval_decides e :
  0 <= kl_value (vsub current_policy (vscale e x)) ->
  exists b, trial e = Ok b /\ (b = true <-> ok e).
Proof.
  intros Hkl. unfold set_and_eval, acceptable.
  apply Qle_bool_iff in Hkl. rewrite Hkl. eexists. split; [reflexivity|].
  rewrite !andb_true_iff, pymax_Qmax, !Qle_bool_iff.
  destruct (Nat.ltb_spec 1 optim_case) as [Hk|Hk].
  - rewrite Qle_bool_iff. tauto.
  - intuition lia.
Qed.

Lemma search_first pre : forall e post,
  safe (pre ++ [e]) -> Forall (fun e' => ~ ok e') pre -> ok e ->
  loop (pre ++ e :: post) = Ok (Some e).
Proof.
  induction pre as [|e' pre IH]; intros e post Hsafe Hpre He; simpl.
  - inversion Hsafe as [|? ? Hkl _]; subst.
    destruct (set_and_eval_decides e Hkl) as (b & -> & Hb). cbn [bind].
    apply Hb in He. now rewrite He.
  - inversion Hsafe as [|? ? Hkl Hsafe']; subst.
    inversion Hpre as [|? ? Hno Hpre']; subst.
    destruct (set_and_eval_decides e' Hkl) as (b & -> & Hb). cbn [bind].
    destruct b; [exfalso; apply Hno, Hb; reflexivity|].
    now apply IH.
Qed.

Lemma search_none cands :
  safe cands -> Forall (fun e => ~ ok e) cands -> loop cands = Ok None.
Proof.
  induction cands as [|e cands IH]; intros Hsafe Hno; simpl; [reflexivity|].
  inversion Hsafe as [|? ? Hkl Hsafe']; subst.
  inversion Hno as [|? ? He Hno']; subst.
  destruct (set_and_eval_decides e Hkl) as (b & -> & Hb). cbn [bind].
  destruct b; [exfalso; apply He, Hb; reflexivity|].
  now apply IH.
Qed.

Lemma search_reaches_last pre z :
  safe pre -> trial z = Ok true ->
  exists e, In e (pre ++ [z]) /\ loop (pre ++ [z]) = Ok (Some e).
Proof.
  intros Hsafe Hz. induction pre as [|e pre IH]; simpl.
  - rewrite Hz. cbn [bind]. exists z; auto.
  - inversion Hsafe as [|? ? Hkl Hsafe']; subst.
    destruct (set_and_eval_decides e Hkl) as (b & -> & _). cbn [bind].
    destruct b; [exists e; auto|].
    destruct (IH Hsafe') as (e0 & Hin & ->). exists e0; auto.
Qed.

End Search.

Lemma schedule_values :
  length pi_linear_search_list = 10%nat
  /\ forall i, (i < 10)%nat ->
       nth i pi_linear_search_list 0 == inject_Z (Z.of_nat (9 - i)) * ((1 # 100) / 9).
Proof.
  split; [reflexivity|]. intros i Hi.
  do 10 (destruct i as [|i]; [reflexivity|]). lia.
Qed.

(** C3. The line search tries the 10 evenly spaced step sizes of
    [[0, 0.01]] from the largest to the smallest; it accepts the first
    candidate [e] at which the three predicates hold at
    [theta' = theta - e*x] (KL within [max_kl]; surrogate return not below
    its pre-step value, asked only when the case is greater than 1;
    surrogate cost risen by at most [max(-c, 0)]) and leaves the actor at
    [theta - e*x]; when no candidate satisfies them, the step length is 0
    and the actor is back at its pre-update parameters.  (No trial point has
    a negative KL divergence, on which the assertion would abort.) *)
Theorem line_search_first_acceptable
  (kl_value surr_adv surr_cost : vec -> Q) (current_policy x : vec)
  (optim_case : nat) (c surrogate_loss surrogate_cost_loss : Q) :
  length x = length current_policy ->
  kl_never_negative kl_value current_policy x pi_linear_search_list ->
  let ok := acceptable kl_value surr_adv surr_cost current_policy x
              optim_case c surrogate_loss surrogate_cost_loss in
  let run := line_search kl_value surr_adv surr_cost current_policy x
               optim_case c surrogate_loss surrogate_cost_loss in
  (length pi_linear_search_list = 10%nat
   /\ forall i, (i < 10)%nat ->
        nth i pi_linear_search_list 0 == inject_Z (Z.of_nat (9 - i)) * ((1 # 100) / 9))
  /\ (forall pre e post,
        pi_linear_search_list = pre ++ e :: post ->
        Forall (fun e' => ~ ok e') pre -> ok e ->
        run = Ok (e, vsub current_policy (vscale e x)))
  /\ (Forall (fun e => ~ ok e) pi_linear_search_list ->
      exists theta', run = Ok (0, theta') /\ veq theta' current_policy).
Proof.
  intros Hlen Hsafe ok run. split; [exact schedule_values|]. split.
  - intros pre e post Hsplit Hpre He. subst run. unfold line_search.
    rewrite Hsplit in *.
    assert (Hs : kl_never_negative kl_value current_policy x (pre ++ [e])).
    { unfold kl_never_negative in *. rewrite Forall_app in *.
      destruct Hsafe as [H1 H2]. split; [exact H1|].
      inversion H2; subst. constructor; [assumption|constructor]. }
    rewrite (@search_first kl_value surr_adv surr_cost current_policy x optim_case c
               surrogate_loss surrogate_cost_loss pre e post Hs Hpre He). cbn [bind].
    reflexivity.
  - intros Hno. subst run. unfold line_search.
    rewrite (@search_none kl_value surr_adv surr_cost current_policy x optim_case c
               surrogate_loss surrogate_cost_loss _ Hsafe Hno). cbn [bind].
    eexists. split; [reflexivity|]. apply vsub_null_step; [reflexivity|assumption].
Qed.

(** C10. The last candidate of the schedule is the step 0.  For every
    minibatch, case and direction the zero step passes the three predicates:
    its KL divergence to the pre-step distribution is 0, its surrogate
    return is the pre-step value and its surrogate cost has not moved.  So,
    unless the assertion stops the loop at an earlier candidate, the loop
    leaves by [break] at some candidate and never runs off the end. *)
Theorem zero_step_always_accepted
  (kl_value surr_adv surr_cost : vec -> Q) (current_policy x : vec)
  (optim_case : nat) (c : Q) :
  length x = length current_policy ->
  respects_veq kl_value -> respects_veq surr_adv -> respects_veq surr_cost ->
  kl_value current_policy == 0 ->
  kl_never_negative kl_value current_policy x (removelast pi_linear_search_list) ->
  let surrogate_loss := surr_adv current_policy in
  let surrogate_cost_loss := surr_cost current_policy in
  let zero := last pi_linear_search_list 1 in
  let theta' := vsub current_policy (vscale zero x) in
  zero == 0
  /\ (kl_value theta' == 0
      /\ surr_adv theta' == surrogate_loss
      /\ surr_cost theta' - surrogate_cost_loss == 0)
  /\ set_and_eval kl_value surr_adv surr_cost current_policy x optim_case c
        surrogate_loss surrogate_cost_loss zero = Ok true
  /\ exists e, In e pi_linear_search_list
       /\ search kl_value surr_adv surr_cost current_policy x optim_case c
            surrogate_loss surrogate_cost_loss pi_linear_search_list = Ok (Some e).
Proof.
  intros Hlen Pkl Padv Pcost Hkl0 Hsafe sl scl zero theta'.
  assert (Hz : zero == 0) by reflexivity.
  assert (Hth : veq theta' current_policy) by (apply vsub_null_step; assumption).
  pose proof (Pkl _ _ Hth) as E1. pose proof (Padv _ _ Hth) as E2.
  pose proof (Pcost _ _ Hth) as E3. fold sl in E2. fold scl in E3.
  assert (Htrial : set_and_eval kl_value surr_adv surr_cost current_policy x optim_case c
                     sl scl zero = Ok true).
  { assert (Hk : 0 <= kl_value theta') by (rewrite E1, Hkl0; apply Qle_refl).
    destruct (@set_and_eval_decides kl_value surr_adv surr_cost current_policy x
                optim_case c sl scl zero Hk) as (b & Hb & Hiff).
    rewrite Hb. f_equal. apply Hiff. unfold acceptable. fold theta'.
    rewrite E1, E2, E3, Hkl0. repeat split.
    - discriminate.
    - intros _. apply Qle_refl.
    - setoid_replace (scl - scl) with 0 by ring. apply Q.le_max_r. }
  split; [exact Hz|]. split; [|split; [exact Htrial|]].
  - rewrite E1, E2, E3, Hkl0. repeat split; try reflexivity. ring.
  - change pi_linear_search_list with (removelast pi_linear_search_list ++ [zero]).
    apply search_reaches_last; assumption.
Qed.

Lemma veq_refl a : veq a a.
Proof. induction a; constructor; [reflexivity|assumption]. Qed.

Lemma map2_veq (f : Q -> Q -> Q) :
  Proper (Qeq ==> Qeq ==> Qeq) f ->
  forall a a' b b', veq a a' -> veq b b' -> veq (map2 f a b) (map2 f a' b').
Proof.
  intros Hf a a' b b' Ha. revert b b'.
  induction Ha as [|s s' a a' Hs _ IH]; intros b b' Hb; [constructor|].
  destruct Hb as [|t t' b b' Ht Hb]; simpl; constructor; [now apply Hf|now apply IH].
Qed.

Lemma matmul_veq a a' b b' : veq a a' -> veq b b' -> matmul a b == matmul a' b'.
Proof.
  intros Ha Hb. unfold matmul.
  pose proof (map2_veq Qmult_comp Ha Hb) as H.
  induction H as [|s s' l l' Hs _ IH]; simpl; [reflexivity|]. now rewrite Hs, IH.
Qed.

Lemma kl0_respects : respects_veq kl0.
Proof.
  intros a b H. unfold kl0.
  assert (E : veq (vsub a theta0) (vsub b theta0))
    by (apply (map2_veq Qminus_comp); [exact H | apply veq_refl]).
  now apply matmul_veq.
Qed.

Lemma surr0_respects : respects_veq surr0.
Proof.
  intros a b H. unfold surr0. apply Qopp_comp. apply matmul_veq; [exact H | apply veq_refl].
Qed.

Lemma cost0_respects : respects_veq cost0.
Proof.
  intros a b H. unfold cost0. apply matmul_veq; [exact H | apply veq_refl].
Qed.

Lemma kl0_never_negative : kl_never_negative kl0 theta0 dir0 pi_linear_search_list.
Proof. repeat constructor; apply Qle_bool_iff; reflexivity. Qed.

(** On the sample minibatch the eight largest steps leave the trust region
    and the ninth, 1/900, is taken. *)
Lemma line_search_first_acceptable_witness :
  line_search kl0 surr0 cost0 theta0 dir0 2 (-1) (surr0 theta0) (cost0 theta0)
  = Ok (nth 8 pi_linear_search_list 0,
        vsub theta0 (vscale (nth 8 pi_linear_search_list 0) dir0)).
Proof.
  destruct (@line_search_first_acceptable kl0 surr0 cost0 theta0 dir0 2 (-1)
              (surr0 theta0) (cost0 theta0) eq_refl kl0_never_negative)
    as (_ & Hfirst & _).
  apply (Hfirst (firstn 8 pi_linear_search_list) (nth 8 pi_linear_search_list 0)
                (skipn 9 pi_linear_search_list)).
  - reflexivity.
  - repeat constructor; intros [H _]; apply Qle_bool_iff in H; discriminate H.
  - repeat split; intros; apply Qle_bool_iff; reflexivity.
Defined.

Lemma zero_step_always_accepted_witness :
  let zero := last pi_linear_search_list 1 in
  zero == 0
  /\ set_and_eval kl0 surr0 cost0 theta0 dir0 1 3 (surr0 theta0) (cost0 theta0) zero = Ok true
  /\ exists e, In e pi_linear_search_list
       /\ search kl0 surr0 cost0 theta0 dir0 1 3 (surr0 theta0) (cost0 theta0)
            pi_linear_search_list = Ok (Some e).
Proof.
  destruct (@zero_step_always_accepted kl0 surr0 cost0 theta0 dir0 1 3 eq_refl
              kl0_respects surr0_respects cost0_respects) as (H1 & _ & H2 & H3).
  - reflexivity.
  - repeat constructor; apply Qle_bool_iff; reflexivity.
  - cbv zeta. auto.
Defined.

End LineSearchFacts.

(** ** The rollout bookkeeping *)

Module RolloutFacts.
Import Num Cpo Run NumFacts Samples.

Lemma filter_none {A : Type} (f : A -> bool) (l : list A) :
  (forall a, In a l -> f a = false) -> filter f l = [].
Proof.
  induction l as [|a l IH]; intros H; simpl; [reflexivity|].
  rewrite (H a (or_introl eq_refl)). apply IH. intros b Hb. apply H. now right.
Qed.

(** No flag raised, no index selected. *)
Lemma new_ids_none (dones : vec) :
  Forall (fun d => d <= 0) dones -> new_ids dones = [].
Proof.
  intros H. unfold new_ids. apply filter_none. intros i Hi.
  apply in_seq in Hi. apply Qltb_ge.
  rewrite Forall_forall in H. apply H. apply nth_In. lia.
Qed.

Lemma book_step_no_done print_log bk rews costs dones :
  Forall (fun d => d <= 0) dones ->
  ep_cost (book_step print_log bk (rews, costs, dones)) = ep_cost bk.
Proof.
  intros H. unfold book_step. destruct print_log; [|reflexivity].
  rewrite (new_ids_none H). simpl. apply app_nil_r.
Qed.

Lemma rollout_no_done print_log steps :
  Forall (fun tr : vec * vec * vec => Forall (fun d => d <= 0) (snd tr)) steps ->
  forall bk, ep_cost (fold_left (book_step print_log) steps bk) = ep_cost bk.
Proof.
  induction 1 as [|[[rews costs] dones] steps H _ IH]; intros bk; simpl; [reflexivity|].
  rewrite IH. apply book_step_no_done. exact H.
Qed.

(** Lines 422-450 with [c = 0]: whenever the scalars are computed, [s] is not
    zero, [B] is [2*max_kl] and the case is 1. *)
Lemma region_on_zero_violation Fvp b v approx_g q k w r s A B :
  region Fvp b v approx_g q 0 = Ok (k, w, r, s, A, B) ->
  k = 1%nat /\ B == 2 * max_kl /\ ~ s == 0.
Proof.
  unfold region, pure_return.
  replace (Qltb 0 0) with false by reflexivity. rewrite andb_false_r.
  destruct (cg_solver Fvp b) as [w0|d|]; cbn [bind]; try discriminate.
  match goal with |- context [div DivA ?a ?b] =>
    destruct (div_cases DivA a b) as [[_ ->]|[Hs ->]] end; cbn [bind]; try discriminate.
  match goal with |- context [div DivB ?a ?b] =>
    destruct (div_cases DivB a b) as [[_ ->]|[_ ->]] end; cbn [bind]; try discriminate.
  intros [= <- _ _ <- _ <-].
  assert (HB : 2 * max_kl - 0 * 0 / matmul w0 (Fvp w0) == 2 * max_kl)
    by (unfold Qdiv; ring).
  split; [|split; [exact HB|exact Hs]].
  unfold classify. replace (Qltb 0 0) with false by reflexivity.
  replace (Qle_bool 0 0) with true by reflexivity. cbn [andb].
  assert (E : Qle_bool 0 (2 * max_kl - 0 * 0 / matmul w0 (Fvp w0)) = true).
  { apply Qle_bool_iff. rewrite HB. discriminate. }
  now rewrite E.
Qed.

(** On one-dimensional inputs with the operator [Fvp_id] every pass of the
    conjugate gradient keeps [0 < r <= p], so no denominator vanishes and the
    solver returns a positive solution. *)
Lemma cg_iter_one_dim n : forall x r p,
  0 <= x -> 0 < r -> r <= p ->
  exists w, cg_iter Fvp_id n [x] [r] [p] = Ok [w] /\ 0 < w.
Proof.
  induction n as [|n IH]; intros x r p Hx Hr Hp.
  - cbn [cg_iter]. unfold Fvp_id, matmul, vadd, vscale. cbn [map map2 fold_right].
    pose proof EPS_pos as He.
    assert (Hden : 0 < p * (p + (1 # 10) * p) + 0 + EPS) by nra.
    rewrite div_defined by lra. cbn [bind].
    eexists. split; [reflexivity|].
    assert (Ha : 0 < (r * r + 0) / (p * (p + (1 # 10) * p) + 0 + EPS)).
    { apply Qlt_shift_div_l; [exact Hden|]. nra. }
    nra.
  - cbn [cg_iter]. unfold Fvp_id at 1 2, matmul at 1 2 3 4, vadd at 1 2 3 4, vscale at 1 2 3 4.
    cbn [map map2 fold_right].
    pose proof EPS_pos as He.
    set (den := p * (p + (1 # 10) * p) + 0 + EPS).
    assert (Hden : 0 < den) by (subst den; nra).
    rewrite (div_defined DivAlpha (r * r + 0) (y := den)) by lra. cbn [bind].
    set (alpha := (r * r + 0) / den).
    assert (Eal : alpha * den == r * r) by (subst alpha; field; lra).
    assert (Ha : 0 < alpha).
    { subst alpha. apply Qlt_shift_div_l; [exact Hden|]. nra. }
    set (r_new := r - alpha * (p + (1 # 10) * p)).
    assert (Hrn : 0 < r_new).
    { subst r_new.
      assert (H1 : (r - alpha * (p + (1 # 10) * p)) * den
                   == r * (den - r * (p + (1 # 10) * p))).
      { setoid_replace ((r - alpha * (p + (1 # 10) * p)) * den)
          with (r * den - (alpha * den) * (p + (1 # 10) * p)) by ring.
        rewrite Eal. ring. }
      assert (H3 : 0 <= (p - r) * (p + (1 # 10) * p))
        by (apply Qmult_le_0_compat; lra).
      assert (H4 : den - r * (p + (1 # 10) * p)
                   == (p - r) * (p + (1 # 10) * p) + EPS) by (subst den; ring).
      assert (H2 : 0 < r * (den - r * (p + (1 # 10) * p))).
      { rewrite H4.
        setoid_replace 0 with (r * 0) by ring.
        apply Qmult_lt_l; [exact Hr|lra]. }
      rewrite <- H1 in H2. nra. }
    cbn [map2 fold_right].
    assert (Hrr : ~ r * r + 0 == 0) by nra.
    rewrite (div_defined DivBeta _ Hrr). cbn [bind].
    set (beta := (r_new * r_new + 0) / (r * r + 0)).
    assert (Hb : 0 < beta).
    { subst beta. apply Qlt_shift_div_l; nra. }
    assert (Hp0 : 0 < p) by lra.
    assert (Hap : 0 < alpha * p) by (apply Qmult_lt_0_compat; assumption).
    assert (Hbp : 0 < beta * p) by (apply Qmult_lt_0_compat; assumption).
    apply IH; [lra | exact Hrn | change (r_new <= r_new + beta * p); lra].
Qed.

(** Hence lines 422-450 do compute their scalars on such an input. *)
Lemma region_defined_one_dim v approx_g q :
  exists k w r s A B, region Fvp_id [1] v approx_g q 0 = Ok (k, w, r, s, A, B).
Proof.
  unfold region, pure_return.
  replace (Qltb 0 0) with false by reflexivity. rewrite andb_false_r.
  unfold cg_solver. cbn [zeros_like map].
  destruct (@cg_iter_one_dim (max_iter - 1) 0 1 1) as (w & -> & Hw); try lra.
  cbn [bind].
  assert (Hs : ~ matmul [w] (Fvp_id [w]) == 0).
  { unfold Fvp_id, matmul, vadd, vscale. cbn [map map2 fold_right]. nra. }
  rewrite (div_defined DivA _ Hs). cbn [bind].
  rewrite (div_defined DivB _ Hs). cbn [bind].
  repeat eexists.
Qed.

(** C4, as the code has it.  When no done flag is raised during the horizon,
    the violation [c] handed to the update is the default 0.  The
    classification never puts it in a feasible regime (cases 2, 3 and 4 all
    require [c < 0]): it selects case 1, feasible recovery, when [B >= 0]
    and case 0 otherwise.  Whenever [s] is not zero, [B = 2*max_kl - c**2/s]
    is [2*max_kl] and the case is 1; in particular every run of lines
    422-450 that computes its scalars ends in case 1. *)
Theorem empty_rollout_selects_recovery
  (print_log : bool) (cost_lim : Q) (st : stats) (bk : books)
  (steps : list (vec * vec * vec)) (bb B : Q) :
  Forall (fun tr : vec * vec * vec => Forall (fun d => d <= 0) (snd tr)) steps ->
  let c := snd (collect print_log cost_lim st bk steps) in
  c = 0
  /\ ~ In (select_case bb c B) [2; 3; 4]%nat
  /\ select_case bb c B = (if Qle_bool 0 B then 1 else 0)%nat
  /\ (forall s : Q, ~ s == 0 ->
      2 * max_kl - c * c / s == 2 * max_kl
      /\ select_case bb c (2 * max_kl - c * c / s) = 1%nat)
  /\ (forall (Fvp : vec -> vec) (b v approx_g : vec) (q : Q)
             (k : nat) (w : vec) (r s A B' : Q),
      region Fvp b v approx_g q c = Ok (k, w, r, s, A, B') ->
      k = 1%nat /\ B' == 2 * max_kl /\ ~ s == 0).
Proof.
  intros Hno. cbv zeta.
  assert (Hc : snd (collect print_log cost_lim st bk steps) = 0).
  { unfold collect. cbn [snd]. rewrite (rollout_no_done print_log Hno). reflexivity. }
  rewrite Hc. split; [reflexivity|].
  assert (HB : forall B0, select_case bb 0 B0 = (if Qle_bool 0 B0 then 1 else 0)%nat).
  { intros B0. unfold select_case, pure_return, classify.
    replace (Qltb 0 0) with false by reflexivity.
    replace (Qle_bool 0 0) with true by reflexivity.
    rewrite andb_false_r. reflexivity. }
  split; [|split; [|split]].
  - rewrite HB. destruct (Qle_bool 0 B); simpl; intuition discriminate.
  - apply HB.
  - intros s Hs.
    assert (Hz : 2 * max_kl - 0 * 0 / s == 2 * max_kl) by (field; exact Hs).
    split; [exact Hz|].
    rewrite HB.
    assert (E : Qle_bool 0 (2 * max_kl - 0 * 0 / s) = true).
    { apply Qle_bool_iff. rewrite Hz. discriminate. }
    now rewrite E.
  - intros Fvp b v approx_g q k w r s A B'. apply region_on_zero_violation.
Qed.

Lemma unfinished_rollout_no_done :
  Forall (fun tr : vec * vec * vec => Forall (fun d => d <= 0) (snd tr)) unfinished_rollout.
Proof. repeat constructor; discriminate. Qed.

Lemma empty_rollout_selects_recovery_witness :
  let c := snd (collect true 25 init_stats (init_books 2) unfinished_rollout) in
  c = 0
  /\ ~ In (select_case (1 # 2) c (1 # 25)) [2; 3; 4]%nat
  /\ select_case (1 # 2) c (1 # 25) = (if Qle_bool 0 (1 # 25) then 1 else 0)%nat
  /\ select_case (1 # 2) c (2 * max_kl - c * c / 3) = 1%nat
  /\ exists w r s A B',
       region Fvp_id [1] [1] [1] 1 c = Ok (1%nat, w, r, s, A, B')
       /\ B' == 2 * max_kl /\ ~ s == 0.
Proof.
  cbv zeta.
  destruct (@empty_rollout_selects_recovery true 25 init_stats (init_books 2)
              unfinished_rollout (1 # 2) (1 # 25) unfinished_rollout_no_done)
    as (Hc & H1 & H2 & H3 & H4).
  split; [exact Hc|]. split; [exact H1|]. split; [exact H2|].
  split; [apply H3; discriminate|].
  revert H4. rewrite Hc. intros H4.
  destruct (region_defined_one_dim [1] [1] 1) as (k & w & r & s & A & B' & E).
  destruct (H4 _ _ _ _ _ _ _ _ _ _ _ E) as (Hk & HB' & Hs).
  exists w, r, s, A, B'. rewrite <- Hk. auto.
Defined.

(** C4 as stated fails: after a rollout without a finished episode the
    update with a cost gradient [b = [1]] ([b.b = 1]) is in case 1, a
    recovery regime, not in a feasible one; so it is for [s = 3] in the
    classification, and so it is when lines 422-450 run on [b] with the
    operator [Fvp_id]. *)
Lemma empty_rollout_not_feasible :
  let c := snd (collect true 25 init_stats (init_books 2) unfinished_rollout) in
  select_case (matmul [1] [1]) c (2 * max_kl - c * c / 3) = 1%nat
  /\ ~ In (select_case (matmul [1] [1]) c (2 * max_kl - c * c / 3)) [2; 3; 4]%nat
  /\ exists k w r s A B',
       region Fvp_id [1] [1] [1] 1 c = Ok (k, w, r, s, A, B')
       /\ k = 1%nat /\ ~ In k [2; 3; 4]%nat.
Proof.
  cbv zeta. split; [reflexivity|]. split; [vm_compute; intuition discriminate|].
  assert (Hc : snd (collect true 25 init_stats (init_books 2) unfinished_rollout) = 0)
    by reflexivity.
  rewrite Hc.
  destruct (region_defined_one_dim [1] [1] 1) as (k & w & r & s & A & B' & E).
  destruct (region_on_zero_violation _ _ _ _ _ E) as (Hk & _ & _).
  exists k, w, r, s, A, B'. split; [exact E|]. split; [exact Hk|].
  rewrite Hk. simpl. intuition discriminate.
Qed.

(** C9, as the code has it.  After the collection phase of the stub rollout
    (two environments, horizon 5, reward 1 and cost 0 per step, done at step
    5) each rolling buffer holds the 0 it was created with, followed by
    exactly one entry per environment: length 5, reward sum 5, cost sum 0;
    the running sums are back to zero. *)
Theorem stub_rollout_buffers (cost_lim : Q) :
  let '(st, bk, _) := collect true cost_lim init_stats (init_books 2) stub_rollout in
  lenbuffer st = [0; 5; 5]
  /\ rewbuffer st = [0; 5; 5]
  /\ costbuffer st = [0; 0; 0]
  /\ episode_length bk = [5; 5]
  /\ reward_sum bk = [5; 5]
  /\ cur_reward_sum bk = [0; 0]
  /\ cur_episode_length bk = [0; 0].
Proof. cbn -[Qplus]. vm_compute. repeat split. Qed.

(** C9 as stated fails: the buffers hold three entries, not one per
    environment, and their first entry is neither length 5 nor reward 5. *)
Lemma stub_rollout_buffers_keep_initial_zero :
  let st := fst (fst (collect true 25 init_stats (init_books 2) stub_rollout)) in
  length (lenbuffer st) = 3%nat
  /\ length (rewbuffer st) = 3%nat
  /\ ~ Forall (fun l => l == 5) (lenbuffer st)
  /\ ~ Forall (fun r => r == 5) (rewbuffer st).
Proof.
  vm_compute. repeat split; intros H; inversion H; subst;
    match goal with H : _ = _ |- _ => discriminate H end.
Qed.

End RolloutFacts.

(** ** The vectorized environments *)

Module EnvFacts.
Import Env Samples.
Local Open Scope nat_scope.

Section Substrate.
Variables env action obs sobs reward cost info avail : Type.
Variable env_step : env -> action -> env * (obs * sobs * reward * cost * done_flag * info * avail).
Variable env_reset : env -> env * (obs * sobs * avail).

Local Notation "'reply'" := (step_reply obs sobs reward cost info avail).

Lemma worker_step_reset_one e a :
  worker_step env_step env_reset e a
  = reset_one env_reset (fst (env_step e a)) (to_reply (snd (env_step e a))).
Proof.
  unfold worker_step, reset_one.
  destruct (env_step e a) as [e1 [[[[[[ob s_ob] rew] cos] done] inf] av]].
  cbn [fst snd to_reply r_done r_reward r_cost r_info].
  destruct (episode_over done); [|reflexivity].
  destruct (env_reset e1) as [e2 [[ob' s_ob'] av']]. reflexivity.
Qed.

Lemma assign_middle {A : Type} (pre : list A) (v a : A) (post : list A) :
  assign (length pre) v (pre ++ a :: post) = pre ++ v :: post.
Proof. induction pre as [|b pre IH]; simpl; [reflexivity|now rewrite IH]. Qed.

Lemma nth_error_middle {A : Type} (pre : list A) (a : A) (post : list A) :
  nth_error (pre ++ a :: post) (length pre) = Some a.
Proof. induction pre as [|b pre IH]; simpl; [reflexivity|exact IH]. Qed.

Lemma dummy_resets_each (reps : list reply) : forall (envs : list env) pe pr,
  length pe = length pr -> length reps <= length envs ->
  dummy_resets env_reset (length pe) (map (@r_done _ _ _ _ _ _) reps)
    (pe ++ envs, pr ++ reps)
  = (pe ++ fst (reset_each env_reset envs reps), pr ++ snd (reset_each env_reset envs reps)).
Proof.
  induction reps as [|rep reps IH]; intros envs pe pr Hlen Hle.
  - simpl. now destruct envs.
  - destruct envs as [|e envs]; [simpl in Hle; lia|].
    cbn [map dummy_resets reset_each].
    rewrite nth_error_middle. rewrite Hlen at 2. rewrite nth_error_middle.
    unfold reset_one.
    destruct (episode_over (r_done rep)).
    + destruct (env_reset e) as [e2 [[ob s_ob] av]].
      rewrite assign_middle. rewrite Hlen at 2. rewrite assign_middle.
      specialize (IH envs (pe ++ [e2])
        (pr ++ [StepReply ob s_ob (r_reward rep) (r_cost rep) (r_done rep) (r_info rep) av])).
      rewrite !length_app, <- !app_assoc in IH. simpl in IH.
      replace (S (length pe)) with (length pe + 1) by lia.
      rewrite IH by (simpl in Hle; lia).
      destruct (reset_each env_reset envs reps). reflexivity.
    + specialize (IH envs (pe ++ [e]) (pr ++ [rep])).
      rewrite !length_app, <- !app_assoc in IH. simpl in IH.
      replace (S (length pe)) with (length pe + 1) by lia.
      rewrite IH by (simpl in Hle; lia).
      destruct (reset_each env_reset envs reps). reflexivity.
Qed.

Lemma dummy_results_length envs : forall actions,
  length (snd (dummy_results env_step envs actions))
  <= length (fst (dummy_results env_step envs actions)).
Proof.
  induction envs as [|e envs IH]; intros [|a actions]; simpl; try lia.
  destruct (env_step e a) as [e1 t]. specialize (IH actions).
  destruct (dummy_results env_step envs actions). simpl in *. lia.
Qed.

Lemma subproc_step_each envs : forall actions,
  subproc_step env_step env_reset envs actions
  = reset_each env_reset (fst (dummy_results env_step envs actions))
               (snd (dummy_results env_step envs actions)).
Proof.
  induction envs as [|e envs IH]; intros [|a actions]; try reflexivity.
  cbn [subproc_step dummy_results]. rewrite worker_step_reset_one, IH.
  destruct (env_step e a) as [e1 t].
  destruct (dummy_results env_step envs actions) as [es reps].
  cbn [fst snd reset_each]. reflexivity.
Qed.

Lemma dummy_is_subproc envs actions :
  dummy_step_wait env_step env_reset envs actions = subproc_step env_step env_reset envs actions.
Proof.
  rewrite subproc_step_each. unfold dummy_step_wait.
  pose proof (dummy_results_length envs actions) as Hle.
  destruct (dummy_results env_step envs actions) as [es reps]. cbn [fst snd] in *.
  pose proof (dummy_resets_each reps es [] [] eq_refl Hle) as H.
  simpl in H. rewrite H. now destruct (reset_each env_reset es reps).
Qed.

(** C7. A worker that receives a step request and sees the episode over
    (every agent of the array done, or the scalar flag true) resets its
    environment before it replies: the observation, the shared observation
    and the available actions of the reply are those of the reset, the
    reward, cost, done and info those of the terminal transition, and the
    worker goes on from the reset environment; otherwise the reply is the
    transition itself.  The sequential substrate returns, environment by
    environment, what the workers of the parallel one reply. *)
Theorem auto_reset_in_step_reply (e : env) (a : action)
  (envs : list env) (actions : list action) :
  let stepped := env_step e a in
  let terminal := to_reply (snd stepped) in
  let fresh := env_reset (fst stepped) in
  let out := snd (worker_step env_step env_reset e a) in
  ((forall b, episode_over (DoneBool b) = b)
   /\ (forall flags, episode_over (DoneArray flags) = true
                     <-> Forall (fun b => b = true) flags))
  /\ (r_reward out = r_reward terminal /\ r_cost out = r_cost terminal
      /\ r_done out = r_done terminal /\ r_info out = r_info terminal)
  /\ (episode_over (r_done terminal) = true ->
      fst (worker_step env_step env_reset e a) = fst fresh
      /\ (r_obs out, r_share_obs out, r_available_actions out) = snd fresh)
  /\ (episode_over (r_done terminal) = false ->
      worker_step env_step env_reset e a = (fst stepped, terminal))
  /\ dummy_step_wait env_step env_reset envs actions
     = subproc_step env_step env_reset envs actions.
Proof.
  cbv zeta. rewrite worker_step_reset_one. unfold reset_one.
  split; [split|].
  - reflexivity.
  - intros flags. simpl. rewrite forallb_forall, Forall_forall. reflexivity.
  - destruct (episode_over (r_done (to_reply (snd (env_step e a))))).
    + destruct (env_reset (fst (env_step e a))) as [e2 [[ob s_ob] av]].
      cbn [fst snd r_obs r_share_obs r_reward r_cost r_done r_info r_available_actions].
      repeat split; try reflexivity; try discriminate. apply dummy_is_subproc.
    + repeat split; try reflexivity; try discriminate. apply dummy_is_subproc.
Qed.

End Substrate.

(** The stub environment at its fifth step: both agents are done, so the
    worker restarts at 0 and replies with the observation of the reset. *)
Lemma auto_reset_in_step_reply_witness :
  fst (worker_step stub_step stub_reset 4 tt) = fst (stub_reset 5)
  /\ (r_obs (snd (worker_step stub_step stub_reset 4 tt)),
      r_share_obs (snd (worker_step stub_step stub_reset 4 tt)),
      r_available_actions (snd (worker_step stub_step stub_reset 4 tt)))
     = snd (stub_reset 5).
Proof.
  destruct (auto_reset_in_step_reply stub_step stub_reset 4 tt [4; 2] [tt; tt])
    as (_ & _ & H & _).
  apply H. reflexivity.
Defined.

(** The stub environment at its fifth step: the reply carries the reward of
    the terminal transition and the observation of the new episode. *)
Example stub_worker_terminal_step :
  worker_step stub_step stub_reset 4 tt
  = (0, StepReply 0 0 1%Q 0%Q (DoneArray [true; true]) tt tt).
Proof. reflexivity. Qed.

Example stub_worker_ordinary_step :
  worker_step stub_step stub_reset 2 tt
  = (3, StepReply 3 3 1%Q 0%Q (DoneArray [false; false]) tt tt).
Proof. reflexivity. Qed.

Example stub_dummy_batch :
  dummy_step_wait stub_step stub_reset [4; 2] [tt; tt]
  = ([0; 3], [StepReply 0 0 1%Q 0%Q (DoneArray [true; true]) tt tt;
              StepReply 3 3 1%Q 0%Q (DoneArray [false; false]) tt tt]).
Proof. reflexivity. Qed.

End EnvFacts.

(** ** More on the flat parameter utilities *)

Module FlatMore.
Import Flat FlatFacts Samples.
Local Open Scope nat_scope.

Section Params.
Context {T : Type}.
Implicit Types (m ps : @model T) (v : list T).

Lemma set_params_from_sizes ps : forall index v,
  map size (fst (set_params_from index ps v)) = map size ps.
Proof.
  induction ps as [|p ps IH]; intros index v; [reflexivity|].
  cbn [set_params_from]. unfold view.
  destruct (_ =? _); [|reflexivity].
  specialize (IH (index + length (data (view_flat p))) v).
  destruct (set_params_from _ ps v) as [rest' o]. simpl in *. now rewrite IH.
Qed.

Lemma set_params_from_wf ps : Forall tensor_wf ps -> forall index v,
  Forall tensor_wf (fst (set_params_from index ps v)).
Proof.
  induction 1 as [|p ps Hp Hps IH]; intros index v; [constructor|].
  cbn [set_params_from]. unfold view.
  destruct (Nat.eqb_spec (length (slice v index (index + length (data (view_flat p)))))
                         (numel (size p))) as [E|E].
  - specialize (IH (index + length (data (view_flat p))) v).
    destruct (set_params_from _ ps v) as [rest' o]. simpl in *.
    constructor; [exact E|exact IH].
  - simpl. constructor; assumption.
Qed.

Lemma total_count_sizes m : Forall tensor_wf m ->
  total_count m = fold_right Nat.add 0 (map (fun p => numel (size p)) m).
Proof.
  induction 1 as [|p ps Hp _ IH]; [reflexivity|].
  rewrite total_count_cons, IH, Hp. reflexivity.
Qed.

(** X1. [set_params] never changes the shape of the model, whether it
    returns or raises: every block keeps its size, the blocks stay
    well-formed and the total parameter count is the same. *)
Theorem set_params_keeps_shapes m v :
  Forall tensor_wf m ->
  map size (fst (set_params m v)) = map size m
  /\ Forall tensor_wf (fst (set_params m v))
  /\ total_count (fst (set_params m v)) = total_count m.
Proof.
  intros Hm. pose proof (set_params_from_sizes m 0 v) as Hs.
  pose proof (set_params_from_wf Hm 0 v) as Hw.
  split; [exact Hs|]. split; [exact Hw|].
  unfold set_params.
  rewrite (total_count_sizes Hw), (total_count_sizes Hm).
  f_equal.
  rewrite <- (map_map size numel), Hs, map_map. reflexivity.
Qed.

Lemma set_params_from_partial ps : Forall tensor_wf ps -> forall index v,
  exists ps1 kept written,
    ps = ps1 ++ kept
    /\ fst (set_params_from index ps v) = written ++ kept
    /\ map size written = map size ps1
    /\ get_flat_params written = firstn (total_count written) (skipn index v)
    /\ index + total_count written <= Nat.max index (length v)
    /\ (snd (set_params_from index ps v) = Done -> kept = [])
    /\ (snd (set_params_from index ps v) = ShapeMismatch -> kept <> []).
Proof.
  induction 1 as [|p ps Hp _ IH]; intros index v.
  - exists [], [], []. repeat split; try reflexivity; try discriminate.
    unfold total_count. simpl. lia.
  - cbn [set_params_from view_flat data]. unfold view.
    rewrite slice_length, <- Hp.
    destruct (Nat.eqb_spec (Nat.min (length (data p)) (length v - index)) (length (data p)))
      as [E|E].
    + destruct (IH (index + length (data p)) v)
        as (ps1 & kept & written & E1 & E2 & E3 & E4 & E5 & E6 & E7).
      destruct (set_params_from (index + length (data p)) ps v) as [rest' o].
      cbn [fst snd] in *.
      exists (p :: ps1), kept,
        (Tensor (size p) (slice v index (index + length (data p))) :: written).
      assert (Hsl : length (slice v index (index + length (data p))) = length (data p))
        by (rewrite slice_length; exact E).
      repeat split.
      * simpl. now rewrite E1.
      * simpl. now rewrite E2.
      * simpl. now rewrite E3.
      * rewrite get_flat_params_cons, total_count_cons. cbn [data]. rewrite Hsl, E4.
        rewrite firstn_plus. f_equal.
        -- unfold slice. f_equal. lia.
        -- rewrite skipn_skipn. do 2 f_equal. lia.
      * rewrite total_count_cons. cbn [data]. rewrite Hsl. lia.
      * assumption.
      * assumption.
    + exists [], (p :: ps), []. repeat split; try reflexivity; try discriminate.
      unfold total_count. simpl. lia.
Qed.

(** X2. Whatever the vector, [set_params] leaves the model split in two:
    a leading run of blocks that were overwritten, holding a prefix of the
    vector in order, and the remaining blocks untouched.  The call returns
    normally exactly when nothing is left untouched; when it raises, the
    model is this mixture of new and old blocks. *)
Theorem set_params_writes_a_prefix m v :
  Forall tensor_wf m ->
  exists m1 kept written,
    m = m1 ++ kept
    /\ fst (set_params m v) = written ++ kept
    /\ map size written = map size m1
    /\ get_flat_params written = firstn (total_count written) v
    /\ total_count written <= length v
    /\ (snd (set_params m v) = Done <-> kept = []).
Proof.
  intros Hm.
  destruct (set_params_from_partial Hm 0 v)
    as (m1 & kept & written & E1 & E2 & E3 & E4 & E5 & E6 & E7).
  exists m1, kept, written. simpl in E4, E5. repeat split; try assumption; try lia.
  intros ->. unfold set_params. destruct (snd (set_params_from 0 m v)) eqn:Eo; [reflexivity|].
  now elim E7.
Qed.

Lemma set_params_from_same_sizes ps1 : forall ps2 index v,
  Forall tensor_wf ps1 -> Forall tensor_wf ps2 -> map size ps1 = map size ps2 ->
  index + total_count ps1 <= length v ->
  set_params_from index ps1 v = set_params_from index ps2 v.
Proof.
  induction ps1 as [|p1 ps1 IH]; intros [|p2 ps2] index v H1 H2 Hs Hle;
    try discriminate; [reflexivity|].
  inversion H1 as [|? ? Hp1 Hps1]; subst. inversion H2 as [|? ? Hp2 Hps2]; subst.
  injection Hs as Hsz Hs. rewrite total_count_cons in Hle.
  cbn [set_params_from view_flat data].
  assert (Hl : length (data p1) = length (data p2)) by (rewrite Hp1, Hp2; now rewrite Hsz).
  rewrite <- Hl, <- Hsz.
  rewrite (IH ps2 (index + length (data p1)) v Hps1 Hps2 Hs) by lia.
  unfold view. rewrite slice_length, <- Hp1.
  replace (Nat.min (length (data p1)) (length v - index)) with (length (data p1)) by lia.
  rewrite Nat.eqb_refl. reflexivity.
Qed.

(** X3. A write with a vector that is long enough overwrites whatever an
    earlier call left behind, also one that raised half way: the result is
    the one the write has on the original model. *)
Theorem set_params_last_write_wins m v v' :
  Forall tensor_wf m -> total_count m <= length v' ->
  set_params (fst (set_params m v)) v' = set_params m v'.
Proof.
  intros Hm Hle.
  destruct (set_params_keeps_shapes v Hm) as (Hs & Hw & Ht).
  apply set_params_from_same_sizes; try assumption. simpl. lia.
Qed.

End Params.

Lemma set_params_keeps_shapes_witness :
  map size (fst (set_params two_blocks [10; 20; 30])) = map size two_blocks
  /\ Forall tensor_wf (fst (set_params two_blocks [10; 20; 30]))
  /\ total_count (fst (set_params two_blocks [10; 20; 30])) = total_count two_blocks.
Proof. exact (@set_params_keeps_shapes nat two_blocks [10; 20; 30] two_blocks_wf). Defined.

Lemma set_params_writes_a_prefix_witness :
  exists m1 kept written,
    two_blocks = m1 ++ kept
    /\ fst (set_params two_blocks [10; 20; 30; 40; 50]) = written ++ kept
    /\ map size written = map size m1
    /\ get_flat_params written = firstn (total_count written) [10; 20; 30; 40; 50]
    /\ total_count written <= length [10; 20; 30; 40; 50]
    /\ (snd (set_params two_blocks [10; 20; 30; 40; 50]) = Done <-> kept = []).
Proof.
  exact (@set_params_writes_a_prefix nat two_blocks [10; 20; 30; 40; 50] two_blocks_wf).
Defined.

Lemma set_params_last_write_wins_witness :
  set_params (fst (set_params two_blocks [10; 20; 30])) [1; 2; 3; 4; 5; 6; 7]
  = set_params two_blocks [1; 2; 3; 4; 5; 6; 7].
Proof.
  apply (@set_params_last_write_wins nat two_blocks [10; 20; 30] [1; 2; 3; 4; 5; 6; 7]
           two_blocks_wf).
  unfold total_count. simpl. lia.
Defined.

End FlatMore.

(** ** More on the conjugate gradient and the dual optimizer *)

Module CgMore.
Import Num Cpo DualSpec NumFacts CpoFacts Samples Fisher Tally.
Local Open Scope result_scope.

Lemma matmul_null_l a : null a -> forall b, matmul a b == 0.
Proof.
  unfold matmul. induction 1 as [|t a Ht _ IH]; intros [|y b]; simpl; try reflexivity.
  rewrite IH, Ht. ring.
Qed.

Lemma cg_iter_null Avp_fun n x r : null r ->
  cg_iter Avp_fun (S n) x r r = DivByZero DivBeta.
Proof.
  intros Hr. cbn [cg_iter].
  assert (H1 : ~ matmul r (Avp_fun r) + EPS == 0).
  { rewrite (matmul_null_l Hr). discriminate. }
  rewrite (div_defined _ _ H1). cbn [bind].
  unfold div. pose proof (matmul_null_l Hr r) as H2.
  apply Qeq_bool_iff in H2. now rewrite H2.
Qed.

(** X4. On a right-hand side whose entries are all zero the conjugate
    gradient divides 0 by 0 at [beta] in its first pass, whatever the
    operator; so does the whole update when the reward gradient vanishes. *)
Theorem vanishing_gradient_stops_cg (sqrt : Q -> Q) (Avp_fun : vec -> vec) (g b : vec) (c : Q) :
  null g ->
  cg_solver Avp_fun g = DivByZero DivBeta
  /\ update_direction sqrt Avp_fun g b c = DivByZero DivBeta.
Proof.
  intros Hg. assert (E : cg_solver Avp_fun g = DivByZero DivBeta)
    by (apply cg_iter_null; exact Hg).
  split; [exact E|]. unfold update_direction. now rewrite E.
Qed.

(** X5. With a cost gradient whose entries are all zero the update
    survives only through the shortcut of case 4, that is when [c < 0];
    with [c >= 0] it solves for the zero vector and divides 0 by 0. *)
Theorem vanishing_cost_gradient (Fvp : vec -> vec) (b v approx_g : vec) (q c : Q) :
  null b ->
  region Fvp b v approx_g q c
  = if Qltb c 0 then Ok (4%nat, zeros_like v, 0, 0, 0, 0) else DivByZero DivBeta.
Proof.
  intros Hb. unfold region, pure_return.
  assert (E : Qle_bool (matmul b b) (1 # 100000000) = true).
  { apply Qle_bool_iff. rewrite (matmul_null_l Hb). discriminate. }
  rewrite E. cbn [andb]. destruct (Qltb c 0); [reflexivity|].
  unfold cg_solver. cbn [max_iter Nat.sub]. now rewrite cg_iter_null.
Qed.

Section Lengths.
Variable Fvp : vec -> vec.
Hypothesis Fvp_length : forall v, length (Fvp v) = length v.

Lemma vadd_length a b : length a = length b -> length (vadd a b) = length a.
Proof. intros H. unfold vadd. revert b H. induction a; intros [|y b] H; simpl in *; try discriminate; auto. Qed.
Lemma vsub_length a b : length a = length b -> length (vsub a b) = length a.
Proof. intros H. unfold vsub. revert b H. induction a; intros [|y b] H; simpl in *; try discriminate; auto. Qed.
Lemma vscale_length k a : length (vscale k a) = length a.
Proof. apply length_map. Qed.

Ltac lengths :=
  repeat first [rewrite vscale_length | rewrite Fvp_length
               | rewrite vadd_length | rewrite vsub_length];
  try lia.

(** X6. The passes of the conjugate gradient keep the shape: with an
    operator that returns vectors of the length of its argument, the
    solution has the length of the right-hand side. *)
Theorem cg_iter_length n : forall x r p y,
  length x = length p -> length r = length p ->
  cg_iter Fvp n x r p = Ok y -> length y = length p.
Proof.
  induction n as [|n IH]; intros x r p y Hx Hr; cbn [cg_iter].
  - destruct (div DivAlpha _ _) as [alpha| |]; cbn [bind]; try discriminate.
    intros [= <-]. rewrite vadd_length; rewrite ?vscale_length; lia.
  - destruct (div DivAlpha _ _) as [alpha| |]; cbn [bind]; try discriminate.
    destruct (div DivBeta _ _) as [beta| |]; cbn [bind]; try discriminate.
    intros H. apply IH in H.
    + rewrite H. lengths.
    + lengths.
    + lengths.
Qed.

End Lengths.

Lemma matmul_self_nonneg p : 0 <= matmul p p.
Proof.
  unfold matmul. induction p as [|t p IH]; simpl; [apply Qle_refl|].
  assert (0 <= t * t) by nra. lra.
Qed.

Lemma matmul_self_null p : matmul p p == 0 -> null p.
Proof.
  unfold matmul, null. induction p as [|t p IH]; simpl; intros H; constructor.
  - pose proof (matmul_self_nonneg p) as Hp. unfold matmul in Hp.
    assert (0 <= t * t) by nra. nra.
  - apply IH. pose proof (matmul_self_nonneg p) as Hp. unfold matmul in Hp.
    assert (0 <= t * t) by nra. lra.
Qed.

Lemma matmul_vadd_r p : forall a b, length a = length p -> length b = length p ->
  matmul p (vadd a b) == matmul p a + matmul p b.
Proof.
  unfold matmul, vadd.
  induction p as [|t p IH]; intros [|x a] [|y b] Ha Hb; simpl in *; try discriminate.
  - ring.
  - rewrite IH by congruence. ring.
Qed.

Lemma matmul_damped p : matmul p (map (fun t => t * damping) p) == damping * matmul p p.
Proof.
  unfold matmul. induction p as [|t p IH]; simpl; [ring|]. rewrite IH. ring.
Qed.

(** X7. The damping makes the Fisher-vector product strictly positive:
    for a positive semi-definite Hessian-vector product, [p.Fvp(p)] is at
    least [0.1 * p.p]; it is zero only for the zero vector, and the
    denominator of [alpha], [p.Fvp(p) + EPS], is never zero. *)
Theorem damping_makes_Fvp_positive (hvp : vec -> vec) (p : vec) :
  (forall v, length (hvp v) = length v) ->
  (forall v, 0 <= matmul v (hvp v)) ->
  damping * matmul p p <= matmul p (Fvp hvp p)
  /\ 0 <= matmul p (Fvp hvp p)
  /\ (matmul p (Fvp hvp p) == 0 -> null p)
  /\ ~ matmul p (Fvp hvp p) + EPS == 0.
Proof.
  intros Hlen Hpsd. unfold Fvp.
  assert (E : matmul p (vadd (hvp p) (map (fun t => t * damping) p))
              == matmul p (hvp p) + damping * matmul p p).
  { rewrite matmul_vadd_r, matmul_damped; [reflexivity|apply Hlen|apply length_map]. }
  pose proof (Hpsd p) as H1. pose proof (matmul_self_nonneg p) as H2.
  assert (Hd : damping == 1 # 10) by reflexivity.
  repeat split.
  - rewrite E. lra.
  - rewrite E, Hd. lra.
  - intros H0. apply matmul_self_null. rewrite E, Hd in H0. lra.
  - rewrite E, Hd. pose proof EPS_pos. lra.
Qed.

(** X8. Whenever the dual optimizer returns, both multipliers are
    non-negative. *)
Theorem multipliers_nonnegative (sqrt : Q -> Q) (k : nat) (q r s c A B l n : Q) :
  (forall t, 0 <= sqrt t) -> 0 <= s ->
  multipliers sqrt k q r s c A B = Ok (l, n) ->
  0 <= l /\ 0 <= n.
Proof.
  intros Hsqrt Hs E.
  destruct (@multipliers_cases sqrt Hsqrt k q r s c A B Hs) as [H|[H|H]];
    rewrite H in E; try discriminate.
  injection E as E. split.
  - pose proof (@spec_lam_nonneg sqrt Hsqrt k q r s c A B) as Hl. now rewrite E in Hl.
  - assert (Hn : 0 <= snd (spec_multipliers sqrt k q r s c A B)).
    { unfold spec_multipliers. pose proof EPS_pos.
      destruct k as [|[|[|[|[|k]]]]]; cbn [snd]; try apply Hsqrt; try apply Qle_refl.
      all: apply Qle_shift_div_l; [lra|]; rewrite Qmult_0_l; apply Q.le_max_l. }
    now rewrite E in Hn.
Qed.

Lemma vadd_null_r v : forall w, length w = length v -> veq (vadd v (vscale 0 w)) v.
Proof.
  unfold vadd, vscale. induction v as [|t v IH]; intros [|y w] H; simpl in *; try discriminate.
  - constructor.
  - constructor; [ring|apply IH; congruence].
Qed.

Lemma vscale_inverse e a b :
  veq a b -> veq (vscale (1 / e) a) (map (fun t => t / e) b).
Proof.
  unfold veq, vscale. induction 1 as [|s t la lb Hst _ IH]; simpl; constructor; [|exact IH].
  rewrite Hst. unfold Qdiv. ring.
Qed.

(** X9. In cases 3 and 4 the cost direction [w] does not enter the
    update: [nu = 0], [lam = sqrt(q/(2*max_kl))] and the direction is
    [v / (lam + EPS)]. *)
Theorem pure_return_ignores_cost_direction
  (sqrt : Q -> Q) (k : nat) (q r s c A B l n : Q) (v w y : vec) :
  k = 3%nat \/ k = 4%nat ->
  length w = length v ->
  multipliers sqrt k q r s c A B = Ok (l, n) ->
  search_dir k l n v w = Ok y ->
  l = sqrt (q / (2 * max_kl)) /\ n = 0
  /\ veq y (map (fun t => t / (l + EPS)) v).
Proof.
  intros Hk Hlen Em Ed.
  assert (E : multipliers sqrt k q r s c A B = Ok (sqrt (q / (2 * max_kl)), 0))
    by (destruct Hk; subst k; reflexivity).
  rewrite E in Em. injection Em as <- <-. split; [reflexivity|]. split; [reflexivity|].
  unfold search_dir in Ed.
  replace (0 <? k)%nat with true in Ed by (destruct Hk; subst k; reflexivity).
  destruct (div DivDir 1 (sqrt (q / (2 * max_kl)) + EPS)) as [d| |] eqn:Edv;
    cbn [bind] in Ed; try discriminate.
  injection Ed as <-.
  unfold div in Edv. destruct (Qeq_bool _ 0); [discriminate|]. injection Edv as <-.
  apply vscale_inverse, vadd_null_r. exact Hlen.
Qed.

Lemma null_pair : null [0; 0].
Proof. repeat constructor. Qed.

Lemma vanishing_gradient_stops_cg_witness :
  cg_solver Fvp_id [0; 0] = DivByZero DivBeta
  /\ update_direction sqrt_6 Fvp_id [0; 0] [1; 2] 3 = DivByZero DivBeta.
Proof. exact (@vanishing_gradient_stops_cg sqrt_6 Fvp_id [0; 0] [1; 2] 3 null_pair). Defined.

Lemma vanishing_cost_gradient_witness :
  region Fvp_id [0; 0] [1; 2] [3; 4] 5 0
  = if Qltb 0 0 then Ok (4%nat, zeros_like [1; 2], 0, 0, 0, 0) else DivByZero DivBeta.
Proof. exact (@vanishing_cost_gradient Fvp_id [0; 0] [1; 2] [3; 4] 5 0 null_pair). Defined.

Lemma Fvp_id_length v : length (Fvp_id v) = length v.
Proof.
  unfold Fvp_id. rewrite vadd_length; [reflexivity|]. now rewrite vscale_length.
Qed.

Lemma cg_iter_length_witness :
  length (match cg_iter Fvp_id 1 [0; 0] [1; 2] [1; 2] with Ok y => y | _ => [] end)
  = length [1; 2].
Proof.
  apply (@cg_iter_length Fvp_id Fvp_id_length 1 [0; 0] [1; 2] [1; 2]); reflexivity.
Defined.

Lemma damping_makes_Fvp_positive_witness :
  damping * matmul [1; 2] [1; 2] <= matmul [1; 2] (Fvp (fun v => v) [1; 2])
  /\ 0 <= matmul [1; 2] (Fvp (fun v => v) [1; 2])
  /\ (matmul [1; 2] (Fvp (fun v => v) [1; 2]) == 0 -> null [1; 2])
  /\ ~ matmul [1; 2] (Fvp (fun v => v) [1; 2]) + EPS == 0.
Proof.
  apply (@damping_makes_Fvp_positive (fun v => v) [1; 2]).
  - reflexivity.
  - exact matmul_self_nonneg.
Defined.

Lemma multipliers_nonnegative_witness :
  0 <= 5000000 # 1000000 /\ 0 <= 0 # 100000001.
Proof.
  apply (@multipliers_nonnegative sqrt_6 2 1 (-1) 1 (-1) 1 1
           (5000000 # 1000000) (0 # 100000001) sqrt_6_nonneg).
  - discriminate.
  - reflexivity.
Defined.

Lemma pure_return_ignores_cost_direction_witness :
  let l := sqrt_6 (1 / (2 * max_kl)) in
  l = sqrt_6 (1 / (2 * max_kl)) /\ 0 = 0
  /\ veq (vscale (1 / (l + EPS)) (vadd [1; 2] (vscale 0 [3; 4])))
         (map (fun t => t / (l + EPS)) [1; 2]).
Proof.
  apply (@pure_return_ignores_cost_direction sqrt_6 4 1 0 0 (-1) 0 0
           (sqrt_6 (1 / (2 * max_kl))) 0 [1; 2] [3; 4]); auto; reflexivity.
Defined.

End CgMore.

(** ** More on the line search *)

Module LineSearchMore.
Import Num Cpo DualSpec NumFacts CpoFacts LineSearchSpec LineSearchFacts Samples.
Local Open Scope result_scope.

Section Search.
Variables kl_value surr_adv surr_cost : vec -> Q.
Variables current_policy x : vec.
Variable optim_case : nat.
Variables c surrogate_loss surrogate_cost_loss : Q.

Local Notation "'trial'" := (set_and_eval kl_value surr_adv surr_cost current_policy x
                           optim_case c surrogate_loss surrogate_cost_loss).
Local Notation "'loop'" := (search kl_value surr_adv surr_cost current_policy x
                           optim_case c surrogate_loss surrogate_cost_loss).
Local Notation "'ok'" := (acceptable kl_value surr_adv surr_cost current_policy x
                           optim_case c surrogate_loss surrogate_cost_loss).
Local Notation "'safe'" := (kl_never_negative kl_value current_policy x).
Local Notation "'kl_at' e" := (kl_value (vsub current_policy (vscale e x))) (at level 10).

Lemma set_and_eval_cases e :
  (kl_at e < 0 /\ trial e = KlNegative)
  \/ (0 <= kl_at e /\ exists b, trial e = Ok b /\ (b = true <-> ok e)).
Proof.
  destruct (Qlt_le_dec (kl_at e) 0) as [H|H].
  - left. split; [exact H|]. unfold set_and_eval.
    apply Qle_bool_gt in H. now rewrite H.
  - right. split; [exact H|]. now apply set_and_eval_decides.
Qed.

Lemma search_some cands : forall e,
  loop cands = Ok (Some e) ->
  exists pre post, cands = pre ++ e :: post
    /\ Forall (fun e' => ~ ok e') pre /\ ok e /\ safe (pre ++ [e]).
Proof.
  induction cands as [|e0 cands IH]; intros e; simpl; [discriminate|].
  destruct (set_and_eval_cases e0) as [[_ ->]|[Hkl (b & -> & Hb)]]; cbn [bind];
    [discriminate|].
  destruct b.
  - intros [= <-]. exists [], cands.
    split; [reflexivity|]. split; [constructor|]. split; [now apply Hb|].
    repeat constructor. exact Hkl.
  - intros H. destruct (IH e H) as (pre & post & -> & Hpre & He & Hs).
    exists (e0 :: pre), post.
    split; [reflexivity|]. split; [|split; [exact He|]].
    + constructor; [|exact Hpre]. intros Hok. apply Hb in Hok. discriminate.
    + simpl. constructor; assumption.
Qed.

Lemma search_exhausted cands :
  loop cands = Ok None -> Forall (fun e => ~ ok e) cands /\ safe cands.
Proof.
  induction cands as [|e0 cands IH]; simpl; [intros _; split; constructor|].
  destruct (set_and_eval_cases e0) as [[_ ->]|[Hkl (b & -> & Hb)]]; cbn [bind];
    [discriminate|].
  destruct b; [discriminate|]. intros H. destruct (IH H) as [H1 H2].
  split; constructor; try assumption. intros Hok. apply Hb in Hok. discriminate.
Qed.

Lemma search_assertion cands :
  loop cands = KlNegative <->
  exists pre e post, cands = pre ++ e :: post
    /\ safe pre /\ Forall (fun e' => ~ ok e') pre /\ kl_at e < 0.
Proof.
  split.
  - induction cands as [|e0 cands IH]; simpl; [discriminate|].
    destruct (set_and_eval_cases e0) as [[Hneg ->]|[Hkl (b & -> & Hb)]]; cbn [bind].
    + intros _. exists [], e0, cands.
      split; [reflexivity|]. split; [constructor|]. split; [constructor|exact Hneg].
    + destruct b; [discriminate|]. intros H.
      destruct (IH H) as (pre & e & post & -> & Hs & Hpre & Hneg).
      exists (e0 :: pre), e, post.
      split; [reflexivity|]. split; [|split; [|exact Hneg]].
      * constructor; assumption.
      * constructor; [|exact Hpre]. intros Hok. apply Hb in Hok. discriminate.
  - intros (pre & e & post & -> & Hs & Hpre & Hneg).
    induction pre as [|e0 pre IH]; simpl.
    + destruct (set_and_eval_cases e) as [[_ ->]|[Hkl _]]; [reflexivity|lra].
    + inversion Hs as [|? ? Hkl Hs']; subst. inversion Hpre as [|? ? Hno Hpre']; subst.
      destruct (set_and_eval_decides kl_value surr_adv surr_cost current_policy x
                  optim_case c surrogate_loss surrogate_cost_loss e0 Hkl) as (b & -> & Hb).
      cbn [bind]. destruct b; [exfalso; apply Hno, Hb; reflexivity|]. now apply IH.
Qed.

End Search.

Lemma schedule_bounds e : In e pi_linear_search_list -> 0 <= e <= 1 # 100.
Proof.
  intros H. vm_compute in H.
  repeat (destruct H as [<-|H]; [split; apply Qle_bool_iff; reflexivity|]). contradiction.
Qed.

(** X10. Whenever the line search completes, the actor is at
    [theta - step*x] for a step between 0 and 0.01, and either the step is
    a candidate at which the three predicates hold, or it is 0 because none
    of the ten candidates passed. *)
Theorem line_search_result
  (kl_value surr_adv surr_cost : vec -> Q) (current_policy x : vec)
  (optim_case : nat) (c surrogate_loss surrogate_cost_loss step : Q) (theta' : vec) :
  line_search kl_value surr_adv surr_cost current_policy x optim_case c
    surrogate_loss surrogate_cost_loss = Ok (step, theta') ->
  let ok := acceptable kl_value surr_adv surr_cost current_policy x optim_case c
              surrogate_loss surrogate_cost_loss in
  theta' = vsub current_policy (vscale step x)
  /\ 0 <= step <= 1 # 100
  /\ ((In step pi_linear_search_list /\ ok step)
      \/ (step = 0 /\ Forall (fun e => ~ ok e) pi_linear_search_list)).
Proof.
  intros H ok. unfold line_search in H.
  destruct (search _ _ _ _ _ _ _ _ _ pi_linear_search_list) as [[e|]| |] eqn:E;
    cbn [bind] in H; try discriminate; injection H as <- <-.
  - apply search_some in E. destruct E as (pre & post & Hsplit & _ & He & _).
    assert (Hin : In e pi_linear_search_list) by (rewrite Hsplit; apply in_elt).
    split; [reflexivity|]. split; [now apply schedule_bounds|]. left; auto.
  - apply search_exhausted in E. destruct E as [Hno _].
    split; [reflexivity|]. split; [split; apply Qle_bool_iff; reflexivity|]. right; auto.
Qed.

Lemma null_step_acceptable
  (kl_value surr_adv surr_cost : vec -> Q) (current_policy x : vec)
  (optim_case : nat) (c e : Q) :
  length x = length current_policy ->
  respects_veq kl_value -> respects_veq surr_adv -> respects_veq surr_cost ->
  kl_value current_policy == 0 -> e == 0 ->
  acceptable kl_value surr_adv surr_cost current_policy x optim_case c
    (surr_adv current_policy) (surr_cost current_policy) e.
Proof.
  intros Hlen Pkl Padv Pcost Hkl0 He.
  pose proof (vsub_null_step current_policy x He Hlen) as Hth.
  unfold acceptable.
  rewrite (Pkl _ _ Hth), (Padv _ _ Hth), (Pcost _ _ Hth), Hkl0.
  repeat split.
  - discriminate.
  - intros _. apply Qle_refl.
  - setoid_replace (surr_cost current_policy - surr_cost current_policy) with 0 by ring.
    apply Q.le_max_r.
Qed.

(** X12. A line search that completes leaves the update inside its
    bounds: started from the actor's own evaluation, it ends at one of the
    ten candidates, with the KL divergence to the pre-step policy between 0
    and [max_kl], the surrogate cost risen by at most [max(-c, 0)], and,
    when the case is greater than 1, the surrogate return not decreased. *)
Theorem completed_line_search_is_safe
  (kl_value surr_adv surr_cost : vec -> Q) (current_policy x : vec)
  (optim_case : nat) (c step : Q) (theta' : vec) :
  length x = length current_policy ->
  respects_veq kl_value -> respects_veq surr_adv -> respects_veq surr_cost ->
  kl_value current_policy == 0 ->
  line_search kl_value surr_adv surr_cost current_policy x optim_case c
    (surr_adv current_policy) (surr_cost current_policy) = Ok (step, theta') ->
  In step pi_linear_search_list
  /\ 0 <= kl_value theta' <= max_kl
  /\ surr_cost theta' - surr_cost current_policy <= Qmax (- c) 0
  /\ ((1 < optim_case)%nat -> surr_adv current_policy <= surr_adv theta').
Proof.
  intros Hlen Pkl Padv Pcost Hkl0 H. unfold line_search in H.
  destruct (search _ _ _ _ _ _ _ _ _ pi_linear_search_list) as [[e|]| |] eqn:E;
    cbn [bind] in H; try discriminate; injection H as <- <-.
  - apply search_some in E. destruct E as (pre & post & Hsplit & _ & He & Hs).
    split; [rewrite Hsplit; apply in_elt|].
    destruct He as (H1 & H2 & H3).
    unfold kl_never_negative in Hs. rewrite Forall_app in Hs. destruct Hs as [_ Hs].
    inversion Hs; subst. repeat split; assumption.
  - exfalso. apply search_exhausted in E. destruct E as [Hno _].
    rewrite Forall_forall in Hno.
    apply (Hno (last pi_linear_search_list 1)).
    + change pi_linear_search_list with (removelast pi_linear_search_list
                                           ++ [last pi_linear_search_list 1]) at 2.
      apply in_elt.
    + apply null_step_acceptable; try assumption. reflexivity.
Qed.

(** X11. The assertion ends the line search exactly when a candidate with
    a negative KL divergence is reached before any candidate has been
    accepted. *)
Theorem assertion_fires_at_first_negative_kl
  (kl_value surr_adv surr_cost : vec -> Q) (current_policy x : vec)
  (optim_case : nat) (c surrogate_loss surrogate_cost_loss : Q) (cands : list Q) :
  search kl_value surr_adv surr_cost current_policy x optim_case c
    surrogate_loss surrogate_cost_loss cands = KlNegative
  <-> exists pre e post, cands = pre ++ e :: post
        /\ kl_never_negative kl_value current_policy x pre
        /\ Forall (fun e' => ~ acceptable kl_value surr_adv surr_cost current_policy x
                               optim_case c surrogate_loss surrogate_cost_loss e') pre
        /\ kl_value (vsub current_policy (vscale e x)) < 0.
Proof. apply search_assertion. Qed.

Lemma line_search_result_witness :
  let ok := acceptable kl0 surr0 cost0 theta0 dir0 2 (-1) (surr0 theta0) (cost0 theta0) in
  [800 # 900; 1800 # 900] = vsub theta0 (vscale (1 # 900) dir0)
  /\ 0 <= 1 # 900 <= 1 # 100
  /\ ((In (1 # 900) pi_linear_search_list /\ ok (1 # 900))
      \/ (1 # 900 = 0 /\ Forall (fun e => ~ ok e) pi_linear_search_list)).
Proof.
  apply (@line_search_result kl0 surr0 cost0 theta0 dir0 2 (-1) (surr0 theta0)
           (cost0 theta0) (1 # 900) [800 # 900; 1800 # 900]).
  reflexivity.
Defined.

Lemma completed_line_search_is_safe_witness :
  In (1 # 900) pi_linear_search_list
  /\ 0 <= kl0 [800 # 900; 1800 # 900] <= max_kl
  /\ cost0 [800 # 900; 1800 # 900] - cost0 theta0 <= Qmax (- (-1)) 0
  /\ ((1 < 2)%nat -> surr0 theta0 <= surr0 [800 # 900; 1800 # 900]).
Proof.
  apply (@completed_line_search_is_safe kl0 surr0 cost0 theta0 dir0 2 (-1) (1 # 900)
           [800 # 900; 1800 # 900] eq_refl kl0_respects surr0_respects cost0_respects);
    reflexivity.
Defined.

End LineSearchMore.

(** ** More on the rollout bookkeeping *)

Module RolloutMore.
Import Num Cpo Run NumFacts CpoFacts RolloutFacts Samples Tally CgMore.

Local Open Scope nat_scope.

Lemma deque_append_window buf v :
  deque_append buf v = skipn (length (buf ++ [v]) - maxlen) (buf ++ [v]).
Proof. reflexivity. Qed.

Lemma deque_extend_skipn vs : forall buf, length buf <= maxlen ->
  fold_left deque_append vs buf = skipn (length (buf ++ vs) - maxlen) (buf ++ vs).
Proof.
  induction vs as [|v vs IH]; intros buf Hb.
  - simpl. rewrite app_nil_r. replace (length buf - maxlen) with 0 by lia. reflexivity.
  - cbn [fold_left]. rewrite IH.
    + rewrite deque_append_window.
      set (k1 := length (buf ++ [v]) - maxlen).
      assert (Hk1 : k1 <= length (buf ++ [v])) by (subst k1; lia).
      replace (skipn k1 (buf ++ [v]) ++ vs) with (skipn k1 ((buf ++ [v]) ++ vs)).
      2:{ rewrite skipn_app. replace (k1 - length (buf ++ [v])) with 0 by lia. reflexivity. }
      rewrite skipn_skipn, <- app_assoc. simpl. f_equal.
      rewrite !length_app, length_skipn, !length_app. simpl. subst k1.
      rewrite length_app. simpl. lia.
    + rewrite deque_append_window, length_skipn. lia.
Qed.

(** X13. The rolling buffers are windows: extending a buffer that is
    within its capacity of 100 keeps the last 100 entries of the old
    contents followed by the new ones, oldest dropped first, and never holds
    more than 100. *)
Theorem deque_extend_window (buf vs : list Q) :
  length buf <= maxlen ->
  deque_extend buf vs = skipn (length (buf ++ vs) - maxlen) (buf ++ vs)
  /\ length (deque_extend buf vs) = Nat.min maxlen (length buf + length vs).
Proof.
  intros Hb. unfold deque_extend. rewrite (@deque_extend_skipn vs buf Hb).
  split; [reflexivity|]. rewrite length_skipn, length_app. lia.
Qed.

Local Open Scope Q_scope.

Lemma vsum_app a b : vsum (a ++ b) == vsum a + vsum b.
Proof. unfold vsum. induction a as [|t a IH]; simpl; [ring|]. rewrite IH. ring. Qed.

Lemma vsum_vadd a : forall b, length a = length b -> vsum (vadd a b) == vsum a + vsum b.
Proof.
  unfold vsum, vadd. induction a as [|t a IH]; intros [|y b] H; simpl in *; try discriminate.
  - ring.
  - rewrite IH by congruence. ring.
Qed.

Lemma vsum_put i : forall t, vsum (put i 0 t) == vsum t - nth i t 0.
Proof.
  unfold vsum. induction i as [|i IH]; intros [|h t]; simpl; try ring.
  rewrite IH. ring.
Qed.

Lemma nth_put_other i v : forall j t, i <> j -> nth j (put i v t) 0 = nth j t 0.
Proof.
  induction i as [|i IH]; intros [|j] [|h t] H; simpl; try reflexivity; try congruence.
  apply IH. congruence.
Qed.

Lemma put_length i v : forall t, length (put i v t) = length t.
Proof. induction i as [|i IH]; intros [|h t]; simpl; auto. Qed.

Lemma zero_at_length ids : forall t, length (zero_at ids t) = length t.
Proof.
  unfold zero_at. induction ids as [|i ids IH]; intros t; simpl; [reflexivity|].
  rewrite IH. apply put_length.
Qed.

Lemma gather_put i t ids : ~ In i ids -> gather (put i 0 t) ids = gather t ids.
Proof.
  intros H. unfold gather. apply map_ext_in. intros j Hj.
  apply nth_put_other. intros ->. contradiction.
Qed.

Lemma zero_at_gather ids : NoDup ids ->
  forall t, vsum (zero_at ids t) + vsum (gather t ids) == vsum t.
Proof.
  induction 1 as [|i ids Hi _ IH]; intros t.
  - simpl. ring.
  - change (zero_at (i :: ids) t) with (zero_at ids (put i 0 t)).
    specialize (IH (put i 0 t)). rewrite (@gather_put i t ids Hi), vsum_put in IH.
    change (gather t (i :: ids)) with (nth i t 0 :: gather t ids).
    change (vsum (nth i t 0 :: gather t ids)) with (nth i t 0 + vsum (gather t ids)).
    lra.
Qed.

Lemma new_ids_NoDup dones : NoDup (new_ids dones).
Proof. unfold new_ids. apply NoDup_filter, seq_NoDup. Qed.

Lemma book_step_reward n bk rews costs dones :
  length (cur_reward_sum bk) = n -> length rews = n ->
  let bk' := book_step true bk (rews, costs, dones) in
  length (cur_reward_sum bk') = n
  /\ vsum (reward_sum bk') + vsum (cur_reward_sum bk')
     == vsum (reward_sum bk) + vsum (cur_reward_sum bk) + vsum rews.
Proof.
  intros Hc Hr. cbn [book_step cur_reward_sum reward_sum]. split.
  - rewrite zero_at_length, vadd_length; lia.
  - rewrite vsum_app.
    pose proof (zero_at_gather (new_ids_NoDup dones) (vadd (cur_reward_sum bk) rews)) as H.
    rewrite vsum_vadd in H by congruence. lra.
Qed.

Lemma book_step_cost n bk rews costs dones :
  length (cur_cost_sum bk) = n -> length costs = n ->
  let bk' := book_step true bk (rews, costs, dones) in
  length (cur_cost_sum bk') = n
  /\ vsum (cost_sum bk') + vsum (cur_cost_sum bk')
     == vsum (cost_sum bk) + vsum (cur_cost_sum bk) + vsum costs.
Proof.
  intros Hc Hr. cbn [book_step cur_cost_sum cost_sum]. split.
  - rewrite zero_at_length, vadd_length; lia.
  - rewrite vsum_app.
    pose proof (zero_at_gather (new_ids_NoDup dones) (vadd (cur_cost_sum bk) costs)) as H.
    rewrite vsum_vadd in H by congruence. lra.
Qed.

(** X14. The bookkeeping neither loses nor double counts: after any
    rollout, the sums of the finished episodes plus the running sums of the
    unfinished ones equal what they were before plus all the reward (and
    all the cost) the environments paid during the rollout. *)
Theorem rollout_conserves_sums (n : nat) (steps : list (vec * vec * vec)) (bk : books) :
  length (cur_reward_sum bk) = n -> length (cur_cost_sum bk) = n ->
  Forall (fun tr : vec * vec * vec =>
            length (fst (fst tr)) = n /\ length (snd (fst tr)) = n) steps ->
  let bk' := fold_left (book_step true) steps bk in
  vsum (reward_sum bk') + vsum (cur_reward_sum bk')
    == vsum (reward_sum bk) + vsum (cur_reward_sum bk) + total_rewards steps
  /\ vsum (cost_sum bk') + vsum (cur_cost_sum bk')
    == vsum (cost_sum bk) + vsum (cur_cost_sum bk) + total_costs steps.
Proof.
  intros Hr Hc Hsteps. revert bk Hr Hc.
  induction Hsteps as [|[[rews costs] dones] steps [H1 H2] _ IH]; intros bk Hr Hc.
  - simpl. split; ring.
  - cbn [fold_left]. cbn [fst snd] in H1, H2.
    destruct (@book_step_reward n bk rews costs dones Hr H1) as [Lr Er].
    destruct (@book_step_cost n bk rews costs dones Hc H2) as [Lc Ec].
    destruct (IH _ Lr Lc) as [IHr IHc]. cbv zeta in *.
    split; [rewrite IHr, Er | rewrite IHc, Ec]; simpl; ring.
Qed.

Lemma book_step_fresh print_log bk tr :
  fresh (book_step print_log bk tr) = fresh (book_step print_log (fresh bk) tr)
  /\ reward_sum (book_step print_log bk tr)
     = reward_sum bk ++ reward_sum (book_step print_log (fresh bk) tr)
  /\ cost_sum (book_step print_log bk tr)
     = cost_sum bk ++ cost_sum (book_step print_log (fresh bk) tr)
  /\ episode_length (book_step print_log bk tr)
     = episode_length bk ++ episode_length (book_step print_log (fresh bk) tr).
Proof.
  destruct tr as [[rews costs] dones]. unfold book_step.
  destruct print_log; cbn; rewrite ?app_nil_r; repeat split; reflexivity.
Qed.

Lemma fresh_fresh bk : fresh (fresh bk) = fresh bk.
Proof. reflexivity. Qed.

Lemma rollout_appends print_log steps : forall bk,
  let bk' := fold_left (book_step print_log) steps bk in
  let new := fold_left (book_step print_log) steps (fresh bk) in
  reward_sum bk' = reward_sum bk ++ reward_sum new
  /\ cost_sum bk' = cost_sum bk ++ cost_sum new
  /\ episode_length bk' = episode_length bk ++ episode_length new.
Proof.
  induction steps as [|tr steps IH]; intros bk; cbv zeta.
  - simpl. rewrite !app_nil_r. repeat split.
  - cbn [fold_left].
    destruct (book_step_fresh print_log bk tr) as (F & R & C & L).
    destruct (IH (book_step print_log bk tr)) as (R1 & C1 & L1).
    destruct (IH (book_step print_log (fresh bk) tr)) as (R2 & C2 & L2).
    cbv zeta in *. rewrite R1, C1, L1, R2, C2, L2, F, R, C, L.
    assert (E : fresh (book_step print_log (fresh bk) tr)
                = fresh (book_step print_log (fresh (fresh bk)) tr)) by reflexivity.
    rewrite <- !app_assoc. repeat split.
Qed.

(** X15. The lists of finished episodes are never emptied between
    iterations: a collection phase appends this rollout's episodes to the
    lists it was handed, and extends each rolling buffer with the whole
    list, so the episodes of earlier iterations enter the buffers again. *)
Theorem buffers_recount_finished_episodes
  (cost_lim : Q) (st : stats) (bk : books) (steps : list (vec * vec * vec)) :
  let new := fold_left (book_step true) steps (fresh bk) in
  let after := collect true cost_lim st bk steps in
  reward_sum (snd (fst after)) = reward_sum bk ++ reward_sum new
  /\ rewbuffer (fst (fst after)) = deque_extend (rewbuffer st) (reward_sum bk ++ reward_sum new)
  /\ costbuffer (fst (fst after)) = deque_extend (costbuffer st) (cost_sum bk ++ cost_sum new)
  /\ lenbuffer (fst (fst after))
     = deque_extend (lenbuffer st) (episode_length bk ++ episode_length new).
Proof.
  cbv zeta. unfold collect. cbn [fst snd rewbuffer costbuffer lenbuffer].
  set (bk0 := Books _ _ _ (reward_sum bk) _ _ []).
  destruct (rollout_appends true steps bk0) as (R & C & L). cbv zeta in *.
  change (fresh bk0) with (fresh bk) in *.
  rewrite R, C, L. repeat split.
Qed.

Local Open Scope Q_scope.

(** X16. The update is told the policy is feasible ([c < 0]), and can
    select one of the feasible cases 2, 3 and 4, exactly when at least one
    episode finished during this rollout and the mean cost of the episodes
    finished in it is below the cost limit. *)
Theorem feasible_needs_a_finished_episode
  (print_log : bool) (cost_lim : Q) (st : stats) (bk : books)
  (steps : list (vec * vec * vec)) (bb B : Q) :
  let after := collect print_log cost_lim st bk steps in
  let c := snd after in
  let finished := ep_cost (snd (fst after)) in
  (c < 0 <-> finished <> [] /\ np_mean finished < cost_lim)
  /\ (In (select_case bb c B) [2; 3; 4]%nat <-> finished <> [] /\ np_mean finished < cost_lim).
Proof.
  cbv zeta. unfold collect. cbn [fst snd].
  set (bk1 := fold_left _ steps _).
  assert (H : avg_cost (ep_cost bk1) cost_lim < 0
              <-> ep_cost bk1 <> [] /\ np_mean (ep_cost bk1) < cost_lim).
  { unfold avg_cost. destruct (ep_cost bk1) as [|a l] eqn:E; cbn [length Nat.eqb].
    - split; [intros H; discriminate H|intros [H _]; now elim H].
    - split; [intros H; split; [discriminate|lra]|intros [_ H]; lra]. }
  split; [exact H|]. rewrite <- H.
  unfold select_case, pure_return, classify.
  by_cases_on_tests; cbn [andb In]; split; intros; try lra; try tauto;
    repeat match goal with H : _ \/ _ |- _ => destruct H end; try discriminate;
    try contradiction; auto.
Qed.

Lemma deque_extend_window_witness :
  deque_extend [0] [5; 5] = skipn (length ([0] ++ [5; 5]) - maxlen) ([0] ++ [5; 5])
  /\ length (deque_extend [0] [5; 5]) = Nat.min maxlen (length [0] + length [5; 5]).
Proof.
  apply (@deque_extend_window [0] [5; 5]). unfold maxlen. simpl. lia.
Defined.

Lemma rollout_conserves_sums_witness :
  let bk' := fold_left (book_step true) stub_rollout (init_books 2) in
  vsum (reward_sum bk') + vsum (cur_reward_sum bk')
    == vsum (reward_sum (init_books 2)) + vsum (cur_reward_sum (init_books 2))
       + total_rewards stub_rollout
  /\ vsum (cost_sum bk') + vsum (cur_cost_sum bk')
    == vsum (cost_sum (init_books 2)) + vsum (cur_cost_sum (init_books 2))
       + total_costs stub_rollout.
Proof.
  apply (@rollout_conserves_sums 2 stub_rollout (init_books 2)); try reflexivity.
  repeat constructor.
Defined.

(** The stub rollout run twice: the two episodes of the first iteration
    are in the buffer twice. *)
Example stub_rollout_twice :
  let '(st1, bk1, _) := collect true 25 init_stats (init_books 2) stub_rollout in
  let '(st2, _, _) := collect true 25 st1 bk1 stub_rollout in
  rewbuffer st2 = [0; 5; 5; 5; 5; 5; 5].
Proof. vm_compute. reflexivity. Qed.

End RolloutMore.

(** ** The worker loop and the two substrates *)

Module WorkerFacts.
Import Env EnvFacts Worker Samples MoreSamples.
Local Open Scope nat_scope.

Section Loop.
Variables env action obs sobs reward cost info avail : Type.
Variables task_obs frame spaces vdata : Type.
Variable env_step : env -> action -> env * (obs * sobs * reward * cost * done_flag * info * avail).
Variable env_reset : env -> env * (obs * sobs * avail).
Variable env_reset_task : env -> env * task_obs.
Variable env_render : env -> String.string -> env * frame.
Variable env_render_vulnerability : env -> vdata -> env * frame.
Variable env_close : env -> env.
Variable env_spaces : env -> spaces.
Variable env_n_agents : env -> nat.

Local Notation "'worker'" :=
  (shareworker env_step env_reset env_reset_task env_render env_render_vulnerability
     env_close env_spaces env_n_agents).
Local Notation "'turn'" :=
  (handle env_step env_reset env_reset_task env_render env_render_vulnerability
     env_close env_spaces env_n_agents).

Lemma handle_continues e m :
  continues m = true ->
  snd (turn e m) = Receiving
  /\ length (snd (fst (turn e m))) = if answered m then 1 else 0.
Proof.
  destruct m; cbn [continues]; try discriminate; intros _; cbn [handle answered].
  - destruct (worker_step env_step env_reset e data). split; reflexivity.
  - destruct (env_reset e). split; reflexivity.
  - destruct (env_reset_task e). split; reflexivity.
  - destruct (String.eqb mode _).
    + destruct (env_render e mode). split; reflexivity.
    + destruct (String.eqb mode _); split; reflexivity.
  - split; reflexivity.
  - destruct (env_render_vulnerability e data). split; reflexivity.
  - split; reflexivity.
Qed.

Lemma handle_stops e m :
  continues m = false ->
  snd (fst (turn e m)) = []
  /\ snd (turn e m) = match m with Close => Closed | _ => NotImplemented end.
Proof.
  destruct m; cbn [continues]; try discriminate; intros _; split; reflexivity.
Qed.

(** X17. As long as no request is ['close'] or an unknown command, the
    worker stays in its loop and sends exactly one reply for each request
    other than a render in a mode that is not ['rgb_array'], which gets
    none. *)
Theorem worker_goes_on inbox : forall e,
  forallb (@continues action vdata) inbox = true ->
  snd (worker e inbox) = Receiving
  /\ length (snd (fst (worker e inbox))) = length (filter (@answered action vdata) inbox).
Proof.
  induction inbox as [|m inbox IH]; intros e H; [split; reflexivity|].
  cbn [forallb] in H. apply andb_true_iff in H. destruct H as [Hm H].
  cbn [shareworker filter].
  destruct (@handle_continues e m Hm) as [Hst Hlen].
  destruct (turn e m) as [[e1 sent] st]. cbn [fst snd] in *. subst st.
  destruct (IH e1 H) as [IH1 IH2].
  destruct (worker e1 inbox) as [[e2 sent'] st']. cbn [fst snd] in *.
  split; [exact IH1|]. rewrite length_app, Hlen, IH2.
  destruct (answered m); reflexivity.
Qed.

(** X18. The first ['close'] or unknown command ends the loop: the
    requests behind it are never handled, it gets no reply itself, and the
    loop is left by [break] for ['close'] and by [NotImplementedError] for
    an unknown command. *)
Theorem worker_stops pre : forall e m post,
  forallb (@continues action vdata) pre = true -> continues m = false ->
  worker e (pre ++ m :: post) = worker e (pre ++ [m])
  /\ snd (worker e (pre ++ m :: post)) = match m with Close => Closed | _ => NotImplemented end
  /\ length (snd (fst (worker e (pre ++ m :: post))))
     = length (filter (@answered action vdata) pre).
Proof.
  induction pre as [|m0 pre IH]; intros e m post Hpre Hm.
  - cbn [app shareworker].
    destruct (@handle_stops e m Hm) as [Hs Hst].
    destruct (turn e m) as [[e1 sent] st]. cbn [fst snd] in *. subst sent st.
    destruct m; try discriminate; repeat split.
  - cbn [forallb] in Hpre. apply andb_true_iff in Hpre. destruct Hpre as [Hm0 Hpre].
    cbn [app shareworker filter].
    destruct (@handle_continues e m0 Hm0) as [Hst Hlen].
    destruct (turn e m0) as [[e1 sent] st]. cbn [fst snd] in *. subst st.
    destruct (IH e1 m post Hpre Hm) as (E & S & L). rewrite E in *.
    destruct (worker e1 (pre ++ [m])) as [[e2 sent'] st']. cbn [fst snd] in *.
    split; [reflexivity|]. split; [exact S|].
    rewrite length_app, Hlen, L. destruct (answered m0); reflexivity.
Qed.

(** X19. On every sequence of [reset] and [step] calls the sequential
    substrate returns what the parallel one returns, and leaves the
    environments in the same states. *)
Theorem runs_agree (calls : list (call action)) : forall envs,
  dummy_run env_step env_reset envs calls = subproc_run env_step env_reset envs calls.
Proof.
  induction calls as [|[|actions] calls IH]; intros envs; cbn [dummy_run subproc_run].
  - reflexivity.
  - destruct (vec_reset env_reset envs) as [envs1 r]. now rewrite IH.
  - rewrite (dummy_is_subproc env_step env_reset envs actions).
    destruct (subproc_step env_step env_reset envs actions) as [envs1 r]. now rewrite IH.
Qed.

End Loop.

(** X20. With the done flags [ShareEnv.step] builds, a worker resets its
    environment exactly when every agent has terminated or been truncated;
    with no agent at all it resets at every step. *)
Theorem share_dones_all term : forall trunc,
  length term = length trunc ->
  (episode_over (DoneArray (share_dones term trunc)) = true
   <-> Forall2 (fun t u => t = true \/ u = true) term trunc).
Proof.
  induction term as [|t term IH]; intros [|u trunc] H; simpl in *; try discriminate.
  - split; [constructor|reflexivity].
  - injection H as H. specialize (IH trunc H). simpl in IH.
    rewrite andb_true_iff, IH, orb_true_iff. split.
    + intros [H1 H2]. now constructor.
    + intros H2. inversion H2; subst. now split.
Qed.

Lemma worker_goes_on_witness :
  snd (stub_worker 3 [Step tt; Render String.EmptyString; Step tt; GetNumAgents]) = Receiving
  /\ length (snd (fst (stub_worker 3
                         [Step tt; Render String.EmptyString; Step tt; GetNumAgents])))
     = length (filter (@answered unit unit)
                 [Step tt; Render String.EmptyString; Step tt; GetNumAgents]).
Proof.
  apply (@worker_goes_on _ _ _ _ _ _ _ _ _ _ _ _ stub_step stub_reset stub_reset_task
           stub_render stub_render_vulnerability stub_close stub_spaces stub_n_agents
           [Step tt; Render String.EmptyString; Step tt; GetNumAgents] 3).
  reflexivity.
Defined.

Lemma worker_stops_witness :
  stub_worker 3 ([Step tt; Reset] ++ Close :: [Step tt; Step tt])
  = stub_worker 3 ([Step tt; Reset] ++ [Close])
  /\ snd (stub_worker 3 ([Step tt; Reset] ++ Close :: [Step tt; Step tt])) = Closed
  /\ length (snd (fst (stub_worker 3 ([Step tt; Reset] ++ Close :: [Step tt; Step tt]))))
     = length (filter (@answered unit unit) [Step tt; Reset]).
Proof.
  apply (@worker_stops _ _ _ _ _ _ _ _ _ _ _ _ stub_step stub_reset stub_reset_task
           stub_render stub_render_vulnerability stub_close stub_spaces stub_n_agents
           [Step tt; Reset] 3 Close [Step tt; Step tt]); reflexivity.
Defined.

Lemma share_dones_all_witness :
  episode_over (DoneArray (share_dones [true; false] [false; true])) = true
  <-> Forall2 (fun t u => t = true \/ u = true) [true; false] [false; true].
Proof. apply (@share_dones_all [true; false] [false; true]). reflexivity. Defined.

(** No agent, no flag to wait for. *)
Example share_dones_no_agent : episode_over (DoneArray (share_dones [] [])) = true.
Proof. reflexivity. Qed.

End WorkerFacts.

(** ** The IPO policy loss *)

Module IpoFacts.
Import Num NumFacts Ipo Samples MoreSamples Tally.

Lemma penalty_cases kappa penalty_max cost_limit ep_costs :
  let m := cost_limit - ep_costs + (1 # 100000000) in
  (m == 0 /\ penalty kappa penalty_max cost_limit ep_costs = None)
  \/ (~ m == 0 /\ (kappa / m < 0 \/ penalty_max < kappa / m)
      /\ penalty kappa penalty_max cost_limit ep_costs = Some penalty_max)
  \/ (~ m == 0 /\ 0 <= kappa / m <= penalty_max
      /\ penalty kappa penalty_max cost_limit ep_costs = Some (kappa / m)).
Proof.
  cbv zeta. unfold penalty.
  destruct (Qeq_bool (cost_limit - ep_costs + (1 # 100000000)) 0) eqn:E.
  - left. split; [now apply Qeq_bool_iff|reflexivity].
  - right. apply Qeq_bool_neq in E.
    by_cases_on_tests; cbn [orb]; [left|left|left|right]; repeat split; auto; lra.
Qed.

(** X21. With a non-negative [penalty_max], the penalty of the IPO loss,
    whenever it has a value, lies between 0 and [penalty_max]. *)
Theorem penalty_within_bounds (kappa penalty_max cost_limit ep_costs p : Q) :
  0 <= penalty_max ->
  penalty kappa penalty_max cost_limit ep_costs = Some p ->
  0 <= p <= penalty_max.
Proof.
  intros Hmax E.
  destruct (penalty_cases kappa penalty_max cost_limit ep_costs)
    as [[_ H]|[(_ & _ & H)|(_ & Hr & H)]]; rewrite H in E; try discriminate;
    injection E as <-; [lra|exact Hr].
Qed.

(** X22. For positive [kappa] and [penalty_max], with the margin
    [m = cost_limit - ep_costs + 1e-8]: the penalty has no value exactly
    when [m = 0]; it is [penalty_max] when the margin is negative (the
    episode cost is above the limit) and when the margin is positive but
    below [kappa / penalty_max]; from there on it is the barrier value
    [kappa / m]. *)
Theorem penalty_saturates (kappa penalty_max cost_limit ep_costs : Q) :
  0 < kappa -> 0 < penalty_max ->
  let m := cost_limit - ep_costs + (1 # 100000000) in
  (m == 0 <-> penalty kappa penalty_max cost_limit ep_costs = None)
  /\ (m < 0 -> penalty kappa penalty_max cost_limit ep_costs = Some penalty_max)
  /\ (0 < m -> m * penalty_max < kappa ->
      penalty kappa penalty_max cost_limit ep_costs = Some penalty_max)
  /\ (0 < m -> kappa <= m * penalty_max ->
      penalty kappa penalty_max cost_limit ep_costs = Some (kappa / m)).
Proof.
  intros Hk Hmax m.
  pose proof (penalty_cases kappa penalty_max cost_limit ep_costs) as H.
  cbv zeta in H. fold m in H.
  assert (Hd : ~ m == 0 -> (kappa / m) * m == kappa) by (intros; field; assumption).
  revert H Hd. generalize (kappa / m) as d. intros d H Hd.
  split; [|split; [|split]].
  - split.
    + intros Hm. destruct H as [[_ H]|[(Hn & _)|(Hn & _)]]; [exact H|contradiction|contradiction].
    + intros E. destruct H as [[Hm _]|[(_ & _ & H)|(_ & _ & H)]];
        [exact Hm|rewrite H in E; discriminate|rewrite H in E; discriminate].
  - intros Hm. destruct H as [[Hz _]|[(_ & _ & H)|(Hn & Hr & _)]]; [lra|exact H|].
    specialize (Hd Hn). exfalso. nra.
  - intros Hm Hlt. destruct H as [[Hz _]|[(_ & _ & H)|(Hn & Hr & _)]]; [lra|exact H|].
    specialize (Hd Hn). exfalso. nra.
  - intros Hm Hle. destruct H as [[Hz _]|[(Hn & Hr & _)|(_ & _ & H)]]; [lra| |exact H].
    specialize (Hd Hn). exfalso. destruct Hr; nra.
Qed.

Lemma map2_same_length (f : Q -> Q -> Q) a : forall b,
  length a = length b -> length (map2 f a b) = length a.
Proof. induction a as [|x a IH]; intros [|y b] H; simpl in *; try discriminate; auto. Qed.

Lemma ratio_clip_length clip ratio : length (ratio_clip clip ratio) = length ratio.
Proof. apply length_map. Qed.

Lemma products_length clip ratio adv :
  length (map2 Qmult (ratio_clip clip ratio) adv) = length (map2 Qmult ratio adv).
Proof.
  unfold ratio_clip. revert adv.
  induction ratio as [|r ratio IH]; intros [|a adv]; simpl; auto.
Qed.

Lemma vsum_min_le a : forall b, length b = length a ->
  vsum (map2 Qmin a b) <= vsum a.
Proof.
  unfold vsum. induction a as [|x a IH]; intros [|y b] H; simpl in *;
    try discriminate H; [apply Qle_refl|].
  pose proof (Q.le_min_l x y). assert (H1 : length b = length a) by congruence.
  specialize (IH b H1). lra.
Qed.

Lemma vsum_max_ge a : forall b, length b = length a ->
  vsum a <= vsum (map2 Qmax a b).
Proof.
  unfold vsum. induction a as [|x a IH]; intros [|y b] H; simpl in *;
    try discriminate H; [apply Qle_refl|].
  pose proof (Q.le_max_l x y). assert (H1 : length b = length a) by congruence.
  specialize (IH b H1). lra.
Qed.

Lemma mean_some t x : mean t = Some x ->
  t <> [] /\ x = vsum t / inject_Z (Z.of_nat (length t)).
Proof.
  destruct t as [|a t]; [discriminate|]. intros [= <-]. split; [discriminate|reflexivity].
Qed.

Lemma mean_nonempty t : t <> [] -> mean t = Some (vsum t / inject_Z (Z.of_nat (length t))).
Proof. destruct t; [congruence|reflexivity]. Qed.

Lemma count_positive (t : vec) : t <> [] -> 0 < inject_Z (Z.of_nat (length t)).
Proof.
  destruct t as [|a t]; [congruence|]. intros _.
  change 0 with (inject_Z 0). rewrite <- Zlt_Qlt. simpl. lia.
Qed.

Lemma mean_le a b x :
  length a = length b -> vsum a <= vsum b -> mean a = Some x ->
  exists y, mean b = Some y /\ x <= y.
Proof.
  intros Hl Hs Ha. apply mean_some in Ha. destruct Ha as [Hne ->].
  assert (Hb : b <> []) by (destruct a, b; simpl in *; congruence).
  rewrite (mean_nonempty Hb). eexists. split; [reflexivity|].
  rewrite Hl. pose proof (count_positive Hb) as Hn.
  unfold Qdiv. apply Qmult_le_compat_r; [exact Hs|].
  apply Qinv_le_0_compat. lra.
Qed.

Lemma penalty_nonneg kappa penalty_max cost_limit ep_costs p :
  0 <= penalty_max -> penalty kappa penalty_max cost_limit ep_costs = Some p -> 0 <= p.
Proof.
  intros Hmax E.
  destruct (penalty_cases kappa penalty_max cost_limit ep_costs)
    as [[_ H]|[(_ & _ & H)|(_ & Hr & H)]]; rewrite H in E; try discriminate;
    injection E as <-; lra.
Qed.

(** X23. Clipping the ratios can only raise the loss: with a non-negative
    [penalty_max], whenever the IPO loss has a value, so has the loss
    computed from the unclipped ratios, and it is no greater. *)
Theorem clipped_loss_is_pessimistic
  (clip kappa penalty_max cost_limit ep_costs : Q) (ratio adv cost_adv : vec) (l : Q) :
  0 <= penalty_max ->
  loss_pi clip kappa penalty_max cost_limit ep_costs ratio adv cost_adv = Some l ->
  exists u, loss_unclipped kappa penalty_max cost_limit ep_costs ratio adv cost_adv = Some u
            /\ u <= l.
Proof.
  intros Hmax. unfold loss_pi, loss_unclipped, surr_adv, surr_cadv.
  destruct (mean (map2 Qmin _ _)) as [sa|] eqn:Ea; [|discriminate].
  destruct (mean (map2 Qmax _ _)) as [sc|] eqn:Ec; [|discriminate].
  destruct (penalty kappa penalty_max cost_limit ep_costs) as [p|] eqn:Ep; [|discriminate].
  intros [= <-].
  pose proof (@penalty_nonneg _ _ _ _ _ Hmax Ep) as Hp.
  pose proof (products_length clip ratio adv) as La.
  pose proof (products_length clip ratio cost_adv) as Lc.
  assert (Ea' : exists ua, mean (map2 Qmult ratio adv) = Some ua /\ sa <= ua).
  { apply (@mean_le (map2 Qmin (map2 Qmult ratio adv)
                       (map2 Qmult (ratio_clip clip ratio) adv))); [| |exact Ea].
    - apply map2_same_length. now symmetry.
    - apply vsum_min_le. exact La. }
  destruct Ea' as (ua & -> & Hua).
  assert (Ec' : exists uc, mean (map2 Qmult ratio cost_adv) = Some uc /\ uc <= sc).
  { apply mean_some in Ec. destruct Ec as [Hne ->].
    assert (Hb : map2 Qmult ratio cost_adv <> []).
    { intros E0. apply Hne. rewrite E0. reflexivity. }
    rewrite (mean_nonempty Hb). eexists. split; [reflexivity|].
    rewrite (@map2_same_length Qmax _ _ (eq_sym Lc)).
    pose proof (count_positive Hb) as Hn.
    unfold Qdiv. apply Qmult_le_compat_r; [apply vsum_max_ge; exact Lc|].
    apply Qinv_le_0_compat. lra. }
  destruct Ec' as (uc & -> & Huc).
  eexists. split; [reflexivity|]. nra.
Qed.

Lemma clamp_inside r lo hi : lo <= r <= hi -> clamp r lo hi == r.
Proof.
  intros [H1 H2]. unfold clamp.
  rewrite (Q.max_l r lo H1). apply Q.min_l. exact H2.
Qed.

Lemma vsum_veq a b : veq a b -> vsum a == vsum b.
Proof.
  unfold vsum. induction 1 as [|x y a b Hxy _ IH]; simpl; [reflexivity|]. now rewrite Hxy, IH.
Qed.

Lemma veq_length a b : veq a b -> length a = length b.
Proof. induction 1; simpl; congruence. Qed.

Lemma min_products_inactive clip ratio : forall adv,
  Forall (fun r => 1 - clip <= r <= 1 + clip) ratio ->
  veq (map2 Qmin (map2 Qmult ratio adv) (map2 Qmult (ratio_clip clip ratio) adv))
      (map2 Qmult ratio adv)
  /\ veq (map2 Qmax (map2 Qmult ratio adv) (map2 Qmult (ratio_clip clip ratio) adv))
         (map2 Qmult ratio adv).
Proof.
  intros adv H. revert adv.
  induction H as [|r ratio Hr _ IH]; intros [|a adv]; simpl; try (split; constructor).
  - rewrite (clamp_inside Hr). apply Q.min_l, Qle_refl.
  - apply IH.
  - rewrite (clamp_inside Hr). apply Q.max_l, Qle_refl.
  - apply IH.
Qed.

Lemma mean_veq a b x : veq a b -> mean a = Some x -> exists y, mean b = Some y /\ x == y.
Proof.
  intros H Ha. apply mean_some in Ha. destruct Ha as [Hne ->].
  assert (Hb : b <> []) by (destruct H; congruence).
  rewrite (mean_nonempty Hb). eexists. split; [reflexivity|].
  now rewrite (vsum_veq H), (veq_length H).
Qed.

(** X24. When every ratio lies within [[1 - clip, 1 + clip]] the clipping
    has no effect: the IPO loss is the loss of the unclipped ratios. *)
Theorem clipping_inactive_inside_the_band
  (clip kappa penalty_max cost_limit ep_costs : Q) (ratio adv cost_adv : vec) (l : Q) :
  Forall (fun r => 1 - clip <= r <= 1 + clip) ratio ->
  loss_pi clip kappa penalty_max cost_limit ep_costs ratio adv cost_adv = Some l ->
  exists u, loss_unclipped kappa penalty_max cost_limit ep_costs ratio adv cost_adv = Some u
            /\ u == l.
Proof.
  intros Hband. unfold loss_pi, loss_unclipped, surr_adv, surr_cadv.
  destruct (mean (map2 Qmin _ _)) as [sa|] eqn:Ea; [|discriminate].
  destruct (mean (map2 Qmax _ _)) as [sc|] eqn:Ec; [|discriminate].
  destruct (penalty kappa penalty_max cost_limit ep_costs) as [p|]; [|discriminate].
  intros [= <-].
  destruct (min_products_inactive adv Hband) as [Va _].
  destruct (min_products_inactive cost_adv Hband) as [_ Vc].
  destruct (mean_veq Va Ea) as (ua & -> & Hua).
  destruct (mean_veq Vc Ec) as (uc & -> & Huc).
  eexists. split; [reflexivity|]. now rewrite Hua, Huc.
Qed.

Lemma penalty_within_bounds_witness :
  0 <= (1 # 100) / (25 - 5 + (1 # 100000000)) <= 1.
Proof.
  apply (@penalty_within_bounds (1 # 100) 1 25 5
           ((1 # 100) / (25 - 5 + (1 # 100000000)))).
  - discriminate.
  - reflexivity.
Defined.

Lemma penalty_saturates_witness :
  let m := 25 - 30 + (1 # 100000000) in
  (m == 0 <-> penalty (1 # 100) 1 25 30 = None)
  /\ (m < 0 -> penalty (1 # 100) 1 25 30 = Some 1)
  /\ (0 < m -> m * 1 < 1 # 100 -> penalty (1 # 100) 1 25 30 = Some 1)
  /\ (0 < m -> 1 # 100 <= m * 1 -> penalty (1 # 100) 1 25 30 = Some ((1 # 100) / m)).
Proof.
  apply (@penalty_saturates (1 # 100) 1 25 30); reflexivity.
Defined.

Lemma clipped_loss_is_pessimistic_witness :
  exists u, loss_unclipped (1 # 100) 1 25 5 ratios advantages cost_advantages = Some u
            /\ u <= match loss_pi (1 # 5) (1 # 100) 1 25 5 ratios advantages cost_advantages
                     with Some l => l | None => 0 end.
Proof.
  apply (@clipped_loss_is_pessimistic (1 # 5) (1 # 100) 1 25 5 ratios advantages
           cost_advantages).
  - discriminate.
  - reflexivity.
Defined.

Lemma clipping_inactive_inside_the_band_witness :
  exists u, loss_unclipped (1 # 100) 1 25 5 ratios_near advantages cost_advantages = Some u
            /\ u == match loss_pi (1 # 5) (1 # 100) 1 25 5 ratios_near advantages
                            cost_advantages
                     with Some l => l | None => 0 end.
Proof.
  apply (@clipping_inactive_inside_the_band (1 # 5) (1 # 100) 1 25 5 ratios_near
           advantages cost_advantages).
  - repeat constructor; discriminate.
  - reflexivity.
Defined.

(** On the sample minibatch the clipped loss is strictly above the unclipped
    one. *)
Example clipping_raises_the_sample_loss :
  match loss_unclipped (1 # 100) 1 25 5 ratios advantages cost_advantages,
        loss_pi (1 # 5) (1 # 100) 1 25 5 ratios advantages cost_advantages with
  | Some u, Some l => Qltb u l = true
  | _, _ => False
  end.
Proof. reflexivity. Qed.

End IpoFacts.

(** ** The observations of the multi-agent wrapper *)

Module ShareObsFacts.
Import Num NumFacts Run ShareObs Samples MoreSamples Tally CgMore RolloutMore IpoFacts.

Lemma squares_nonneg m t : 0 <= vsum (map (fun v => (v - m) * (v - m)) t).
Proof.
  unfold vsum. induction t as [|v t IH]; cbn [map fold_right]; [apply Qle_refl|].
  assert (0 <= (v - m) * (v - m)) by (generalize (v - m); intros d; nra). lra.
Qed.

Lemma squares_null m t :
  vsum (map (fun v => (v - m) * (v - m)) t) == 0 -> Forall (fun v => v == m) t.
Proof.
  induction t as [|v t IH]; intros H; constructor.
  - pose proof (squares_nonneg m t) as Hn. unfold vsum in *. cbn [map fold_right] in H.
    assert (0 <= (v - m) * (v - m)) by (generalize (v - m); intros d; nra). nra.
  - apply IH. pose proof (squares_nonneg m t) as Hn. unfold vsum in *.
    cbn [map fold_right] in H.
    assert (0 <= (v - m) * (v - m)) by (generalize (v - m); intros d; nra). lra.
Qed.

Lemma variance_nonneg t : 0 <= variance t.
Proof.
  unfold variance, np_mean. rewrite length_map.
  destruct t as [|a t].
  - simpl. discriminate.
  - pose proof (@count_positive (a :: t)) as Hn.
    apply Qle_shift_div_l; [apply Hn; discriminate|].
    rewrite Qmult_0_l. apply (squares_nonneg (np_mean (a :: t)) (a :: t)).
Qed.

Lemma variance_null t : t <> [] -> variance t == 0 -> Forall (fun v => v == np_mean t) t.
Proof.
  intros Hne H. apply squares_null.
  unfold variance in H. unfold np_mean at 1 in H. rewrite length_map in H.
  pose proof (count_positive Hne) as Hn.
  unfold vsum.
  set (S := fold_right Qplus 0 _) in *. set (k := inject_Z _) in *.
  assert (E : S == (S / k) * k) by (field; lra).
  rewrite E, H. ring.
Qed.

Lemma put_hit i v : forall t, (i < length t)%nat -> nth i (put i v t) 0 = v.
Proof.
  induction i as [|i IH]; intros [|h t] H; simpl in *; try lia; [reflexivity|].
  apply IH. lia.
Qed.

Lemma nth_zeros n i : nth i (repeat 0 n) 0 = 0.
Proof.
  revert i. induction n as [|n IH]; intros [|i]; simpl; auto.
Qed.

Lemma feats_length n a : length (agent_id_feats n a) = n.
Proof. unfold agent_id_feats. now rewrite put_length, repeat_length. Qed.

Lemma raw_obs_has_one_and_zero state n a :
  (2 <= n)%nat -> (a < n)%nat ->
  In 1 (raw_obs state n a) /\ In 0 (raw_obs state n a).
Proof.
  intros Hn Ha. unfold raw_obs. split; apply in_or_app; right.
  - rewrite <- (@put_hit a 1 (repeat 0 n)) by (rewrite repeat_length; lia).
    apply nth_In. fold (agent_id_feats n a). rewrite feats_length. lia.
  - set (b := if (a =? 0)%nat then 1%nat else 0%nat).
    assert (Hb : (b < n)%nat /\ a <> b) by (subst b; destruct (Nat.eqb_spec a 0); lia).
    destruct Hb as [Hb Hab].
    rewrite <- (nth_zeros n b). unfold agent_id_feats.
    rewrite <- (@nth_put_other a 1 b (repeat 0 n) Hab).
    apply nth_In. rewrite put_length, repeat_length. exact Hb.
Qed.

Lemma obs_variance_positive state n a :
  (2 <= n)%nat -> (a < n)%nat -> 0 < variance (raw_obs state n a).
Proof.
  intros Hn Ha. destruct (raw_obs_has_one_and_zero state Hn Ha) as [H1 H0].
  pose proof (variance_nonneg (raw_obs state n a)) as Hv.
  destruct (Qeq_dec (variance (raw_obs state n a)) 0) as [E|E]; [|lra].
  exfalso. apply variance_null in E.
  - rewrite Forall_forall in E. pose proof (E _ H1) as E1. pose proof (E _ H0) as E0.
    rewrite <- E0 in E1. discriminate E1.
  - intros E'. rewrite E' in H1. contradiction.
Qed.

(** X25. With two agents or more the observations of [_get_obs] are always
    defined: the one-hot agent id puts both a 0 and a 1 into every
    observation, so its standard deviation, which the source divides by
    without a guard, is never 0; every observation has the length of the
    state plus the number of agents.  The shared observations, divided by
    [std + 1e-8], are defined for any state. *)
Theorem get_obs_is_defined (sqrt : Q -> Q) (state : vec) (n_agents : nat) :
  (forall t, 0 <= sqrt t) -> (forall t, 0 < t -> 0 < sqrt t) ->
  (2 <= n_agents)%nat ->
  length (get_obs sqrt state n_agents) = n_agents
  /\ Forall (fun o => exists v, o = Some v /\ length v = (length state + n_agents)%nat)
       (get_obs sqrt state n_agents)
  /\ Forall (fun o => exists v, o = Some v /\ length v = length state)
       (get_share_obs sqrt state n_agents).
Proof.
  intros Hnn Hpos Hn. unfold get_obs, get_share_obs. split; [|split].
  - now rewrite length_map, length_seq.
  - apply Forall_map, Forall_forall. intros a Ha. apply in_seq in Ha.
    unfold normalize.
    pose proof (Hpos _ (@obs_variance_positive state n_agents a Hn (proj2 Ha))) as Hs.
    destruct (Qeq_bool _ 0) eqn:E; [apply Qeq_bool_iff in E; lra|].
    eexists. split; [reflexivity|].
    unfold raw_obs. now rewrite length_map, length_app, feats_length.
  - apply Forall_forall. intros o Ho. apply repeat_spec in Ho. subst o.
    pose proof (Hnn (variance state)) as Hs.
    destruct (Qeq_bool _ 0) eqn:E; [apply Qeq_bool_iff in E; lra|].
    eexists. split; [reflexivity|]. apply length_map.
Qed.

Lemma sqrt_6_up_pos t : 0 < sqrt_6_up t.
Proof.
  unfold sqrt_6_up. pose proof (CpoFacts.sqrt_6_nonneg t). lra.
Qed.

(** With a single agent the guard is missed: a state of ones gives a
    constant observation, of standard deviation 0. *)
Example single_agent_constant_state : get_obs sqrt_6 [1; 1] 1 = [None].
Proof. reflexivity. Qed.

Lemma get_obs_is_defined_witness :
  length (get_obs sqrt_6_up [3; 1] 2) = 2%nat
  /\ Forall (fun o => exists v, o = Some v /\ length v = (length [3; 1] + 2)%nat)
       (get_obs sqrt_6_up [3; 1] 2)
  /\ Forall (fun o => exists v, o = Some v /\ length v = length [3; 1])
       (get_share_obs sqrt_6_up [3; 1] 2).
Proof.
  apply (@get_obs_is_defined sqrt_6_up [3; 1] 2).
  - intros t. apply Qlt_le_weak, sqrt_6_up_pos.
  - intros t _. apply sqrt_6_up_pos.
  - lia.
Defined.

End ShareObsFacts.
